(** * fetch_anilist_to_sqlite.py: a shallow embedding and its properties

    The script walks the pages of a GraphQL catalogue, flattens every
    item into a row and upserts the rows into one SQLite table.  This
    file embeds, in source order,

    - [clean_description] (lines 45-58), with the three library
      operations it is built from: [re.sub], [str.replace], [str.strip];
    - [fetch_page] (lines 60-68) over a model of one HTTP exchange;
    - [upsert_batch] (lines 85-98) over a table of rows;
    - the loop of [main] (lines 111-156).

    Python values that come out of [resp.json()] are modelled by the
    type [json]; a Python exception is a value of type [exn] and every
    call that can raise returns in the error monad [res].  JSON numbers
    are integers: the catalogue's schema has no fractional field. *)

From Stdlib Require Import Ascii String.
From Stdlib Require DecimalString.
From Stdlib Require Import List Bool Arith NArith ZArith QArith Lia Permutation.
Import ListNotations.
Close Scope Q_scope.

(** ** Python strings

    A [str] is a sequence of Unicode code points. *)

Definition char := N.
Definition str := list char.

(** [lit "abc"] is the Python literal ["abc"] (ASCII text only). *)
Definition lit (s : string) : str := List.map N_of_ascii (list_ascii_of_string s).

Definition NL : char := 10%N.        (* "\n" *)
Definition LT : char := 60%N.        (* "<"  *)
Definition GT : char := 62%N.        (* ">"  *)

Definition str_eqb (a b : str) : bool :=
  if list_eq_dec N.eq_dec a b then true else false.

(** [Py_UNICODE_ISSPACE]: the test behind both [\s] of a [str] pattern
    and [str.strip()] without argument. *)
Definition isspace (c : char) : bool :=
  (((9 <=? c) && (c <=? 13)) || ((28 <=? c) && (c <=? 32))
   || (c =? 133) || (c =? 160) || (c =? 5760)
   || ((8192 <=? c) && (c <=? 8202))
   || (c =? 8232) || (c =? 8233) || (c =? 8239) || (c =? 8287)
   || (c =? 12288))%N.

(** *** The fragment of [re] used by the script

    Each of the four patterns of [clean_description] is a sequence of
    single-character classes, each under a greedy quantifier.  The
    matcher below is the backtracking matcher of [re] on that fragment:
    a quantifier first takes as many characters as it can and gives
    them back one by one while the rest of the pattern fails. *)

Module Re.

Inductive cclass :=
| Chr (c : char)          (* a literal character *)
| Space                   (* \s *)
| NotChr (c : char).      (* [^c] *)

(** Case folding of [re.IGNORECASE] on the ASCII letters; it is exact
    for the literals that occur in the patterns of this script. *)
Definition fold_case (c : char) : char :=
  if ((65 <=? c) && (c <=? 90))%N then (c + 32)%N else c.

Definition in_class (ignorecase : bool) (k : cclass) (c : char) : bool :=
  match k with
  | Chr a => if ignorecase then (fold_case c =? fold_case a)%N else (c =? a)%N
  | Space => isspace c
  | NotChr a => negb (c =? a)%N
  end.

(** A quantified class: at least [rmin] and, when [rmax] is given, at
    most [rmax] characters of the class. *)
Record atom := Atom { cls : cclass; rmin : nat; rmax : option nat }.

Definition one  k := Atom k 1 (Some 1).      (* k    *)
Definition opt  k := Atom k 0 (Some 1).      (* k?   *)
Definition star k := Atom k 0 None.          (* k*   *)
Definition plus k := Atom k 1 None.          (* k+   *)
Definition at_least n k := Atom k n None.    (* k{n,} *)

Definition regex := list atom.

(** [n] repetitions are within the upper bound [hi]. *)
Definition within (n : nat) (hi : option nat) : Prop :=
  match hi with
  | Some m => (n <= m)%nat
  | None => True
  end.

(** The least number of characters a match of the pattern takes. *)
Fixpoint min_len (re : regex) : nat :=
  match re with
  | [] => 0
  | a :: re' => rmin a + min_len re'
  end.

Definition room (m : option nat) : bool :=
  match m with Some 0 => false | _ => true end.

Definition less (m : option nat) : option nat := option_map pred m.

(** [rep p lo hi k s]: match characters satisfying [p] at the head of
    [s], greedily, then the continuation [k]; the result is the text
    left after the whole match. *)
Fixpoint rep (p : char -> bool) (lo : nat) (hi : option nat)
         (k : str -> option str) (s : str) : option str :=
  let stop := match lo with 0 => k s | S _ => None end in
  match s with
  | c :: s' =>
      if p c && room hi then
        match rep p (pred lo) (less hi) k s' with
        | Some r => Some r
        | None => stop
        end
      else stop
  | [] => stop
  end.

Fixpoint match_here (ic : bool) (re : regex) : str -> option str :=
  match re with
  | [] => fun s => Some s
  | a :: re' => rep (in_class ic (cls a)) (rmin a) (rmax a) (match_here ic re')
  end.

(** [re.sub(pattern, repl, text)] for a pattern that cannot match the
    empty string: scan from the left; at a position where the pattern
    matches, emit [repl] and resume after the match, otherwise copy
    one character.  Every round consumes a character, so [length
    text] rounds are enough. *)
Fixpoint sub_loop (fuel : nat) (ic : bool) (re : regex) (repl text : str) : str :=
  match fuel with
  | O => text
  | S fuel' =>
      match text with
      | [] => []
      | c :: text' =>
          match match_here ic re text with
          | Some rest =>
              if (length rest <? length text)%nat
              then repl ++ sub_loop fuel' ic re repl rest
              else c :: sub_loop fuel' ic re repl text'
          | None => c :: sub_loop fuel' ic re repl text'
          end
      end
  end.

Definition sub (ic : bool) (re : regex) (repl text : str) : str :=
  sub_loop (length text) ic re repl text.

End Re.

(** *** [str.replace] and [str.strip] *)

Fixpoint strip_prefix (p s : str) : option str :=
  match p, s with
  | [], _ => Some s
  | a :: p', c :: s' => if (a =? c)%N then strip_prefix p' s' else None
  | _ :: _, [] => None
  end.

(** [old in s] *)
Fixpoint contains (old s : str) : bool :=
  match strip_prefix old s with
  | Some _ => true
  | None => match s with [] => false | _ :: s' => contains old s' end
  end.

Fixpoint replace_loop (fuel : nat) (old new s : str) : str :=
  match fuel with
  | O => s
  | S fuel' =>
      match s with
      | [] => []
      | c :: s' =>
          match strip_prefix old s with
          | Some rest => new ++ replace_loop fuel' old new rest
          | None => c :: replace_loop fuel' old new s'
          end
      end
  end.

(** [s.replace(old, new)]: the non-overlapping occurrences of [old],
    found from the left, are replaced.  An empty [old] matches between
    all characters and at both ends. *)
Definition replace (old new s : str) : str :=
  match old with
  | [] => new ++ flat_map (fun c => c :: new) s
  | _ :: _ => replace_loop (length s) old new s
  end.

Fixpoint lstrip (s : str) : str :=
  match s with
  | c :: s' => if isspace c then lstrip s' else s
  | [] => []
  end.

Definition rstrip (s : str) : str := rev (lstrip (rev s)).

Definition strip (s : str) : str := rstrip (lstrip s).

(** ** Text normalizer: [clean_description], lines 45-58 *)

Import Re.

(* r"<br\s*/?>" *)
Definition re_br : regex :=
  [one (Chr LT); one (Chr 98%N); one (Chr 114%N); star Space; opt (Chr 47%N); one (Chr GT)].

(* r"<[^>]+>" *)
Definition re_tag : regex := [one (Chr LT); plus (NotChr GT); one (Chr GT)].

(* r"\s+\n" *)
Definition re_space_nl : regex := [plus Space; one (Chr NL)].

(* r"\n{3,}" *)
Definition re_nl3 : regex := [at_least 3 (Chr NL)].

Definition decode_entities (text : str) : str :=
  replace (lit "&#39;") (lit "'")
    (replace (lit "&quot;") [34%N]
       (replace (lit "&gt;") (lit ">")
          (replace (lit "&lt;") (lit "<")
             (replace (lit "&amp;") (lit "&") text)))).

Definition clean_description (text : str) : str :=
  match text with
  | [] => []
  | _ :: _ =>
      let text := Re.sub true re_br [NL] text in
      let text := Re.sub false re_tag [] text in
      let text := decode_entities text in
      let text := Re.sub false re_space_nl [NL] text in
      let text := Re.sub false re_nl3 [NL; NL] text in
      strip text
  end.

(** *** Shapes of text the properties of the normalizer speak about *)

(** After an opening bracket: some character other than [>] comes next
    and a [>] stands further on. *)
Definition opens (s : str) : bool :=
  match s with
  | c :: s' => negb (c =? GT)%N && existsb (N.eqb GT) s'
  | [] => false
  end.

(** The text has angle-bracket markup: a [<], at least one character,
    none of them [>], and a closing [>]. *)
Fixpoint has_markup (s : str) : bool :=
  match s with
  | c :: s' => ((c =? LT)%N && opens s') || has_markup s'
  | [] => false
  end.

Definition entities : list str :=
  [lit "&amp;"; lit "&lt;"; lit "&gt;"; lit "&quot;"; lit "&#39;"].

(** The text contains one of the five entities. *)
Definition has_entity (s : str) : bool :=
  existsb (fun e => contains e s) entities.

Definition starts_with_nl (s : str) : bool :=
  match s with
  | c :: _ => (c =? NL)%N
  | [] => false
  end.

(** Somewhere in the text a whitespace character stands right before a
    newline. *)
Fixpoint space_before_nl (s : str) : bool :=
  match s with
  | c :: s' => (isspace c && starts_with_nl s') || space_before_nl s'
  | [] => false
  end.

(** What [\s+\n] leaves of a text, seen from inside a run of whitespace:
    the text after the last newline of the run. *)
Definition after_nl (s : str) : option str :=
  match s with
  | c :: s' => if (c =? NL)%N then Some s' else None
  | [] => None
  end.

Fixpoint last_nl_of_run (s : str) : option str :=
  match s with
  | c :: s' =>
      if isspace c then
        match last_nl_of_run s' with
        | Some r => Some r
        | None => after_nl s
        end
      else None
  | [] => None
  end.

Definition starts_clean (s : str) : bool :=
  match s with
  | c :: _ => negb (isspace c)
  | [] => true
  end.

Definition ends_clean (s : str) : bool := starts_clean (rev s).

(** ** Python values and exceptions *)

#[warning="-register-all"]
Inductive json :=
| JNull                                (* None *)
| JBool (b : bool)
| JNum (n : Z)
| JStr (s : str)
| JList (l : list json)
| JObj (kv : list (str * json)).       (* a dict, in insertion order; its keys are distinct *)

Inductive exn :=
| HTTPError (status_code : option Z)   (* requests.HTTPError and the status of e.response *)
| ConnectionError                      (* requests.ConnectionError *)
| Timeout                              (* requests.Timeout *)
| JSONDecodeError                      (* requests.JSONDecodeError *)
| RuntimeError (errors : json)         (* line 66 *)
| KeyError
| TypeError
| AttributeError
| ValueError
| OverflowError
| SqliteError.                         (* sqlite3.Error *)

Inductive res (A : Type) :=
| Ok (a : A)
| Raise (e : exn).
Arguments Ok {A} a.
Arguments Raise {A} e.

Definition bind {A B} (x : res A) (f : A -> res B) : res B :=
  match x with
  | Ok a => f a
  | Raise e => Raise e
  end.

Notation "x <- c ;; k" := (bind c (fun x => k))
  (at level 61, c at next level, right associativity).

(** Truth value of an object, as tested by [if], [and], [or], [not]. *)
Definition truthy (v : json) : bool :=
  match v with
  | JNull => false
  | JBool b => b
  | JNum n => negb (n =? 0)%Z
  | JStr s => match s with [] => false | _ => true end
  | JList l => match l with [] => false | _ => true end
  | JObj kv => match kv with [] => false | _ => true end
  end.

(** [a or b] *)
Definition py_or (a b : json) : json := if truthy a then a else b.

(** [v is not None] *)
Definition is_not_None (v : json) : bool :=
  match v with JNull => false | _ => true end.

Fixpoint lookup (key : str) (kv : list (str * json)) : option json :=
  match kv with
  | [] => None
  | (k, v) :: kv' => if str_eqb k key then Some v else lookup key kv'
  end.

(** [v.get(key, default)]: only a dict has the method. *)
Definition py_get (v : json) (key : str) (default : json) : res json :=
  match v with
  | JObj kv => Ok (match lookup key kv with Some x => x | None => default end)
  | _ => Raise AttributeError
  end.

(** [v[key]] for a string key. *)
Definition py_item (v : json) (key : str) : res json :=
  match v with
  | JObj kv => match lookup key kv with Some x => Ok x | None => Raise KeyError end
  | _ => Raise TypeError
  end.

Definition is_str (key : str) (v : json) : bool :=
  match v with JStr s => str_eqb s key | _ => false end.

(** [key in v] for a string key. *)
Definition py_in (key : str) (v : json) : res bool :=
  match v with
  | JObj kv => Ok (match lookup key kv with Some _ => true | None => false end)
  | JList l => Ok (existsb (is_str key) l)
  | JStr s => Ok (contains key s)
  | _ => Raise TypeError
  end.

(** The elements produced by [for x in v]. *)
Definition py_iter (v : json) : res (list json) :=
  match v with
  | JList l => Ok l
  | JObj kv => Ok (List.map (fun p => JStr (fst p)) kv)
  | JStr s => Ok (List.map (fun c => JStr [c]) s)
  | _ => Raise TypeError
  end.

(** *** [json.dumps(v, ensure_ascii=False)] *)

Definition hex_digit (n : N) : char :=
  (if n <? 10 then 48 + n else 87 + n)%N.

Definition escape_char (c : char) : str :=
  if (c =? 34)%N then [92%N; 34%N]
  else if (c =? 92)%N then lit "\\"
  else if (c =? 10)%N then lit "\n"
  else if (c =? 13)%N then lit "\r"
  else if (c =? 9)%N then lit "\t"
  else if (c =? 8)%N then lit "\b"
  else if (c =? 12)%N then lit "\f"
  else if (c <? 32)%N then lit "\u00" ++ [hex_digit (c / 16); hex_digit (c mod 16)]
  else [c].

Definition encode_str (s : str) : str :=
  [34%N] ++ flat_map escape_char s ++ [34%N].

Definition repr_int (n : Z) : str :=
  lit (DecimalString.NilZero.string_of_int (Z.to_int n)).

Fixpoint join (sep : str) (parts : list str) : str :=
  match parts with
  | [] => []
  | [x] => x
  | x :: rest => x ++ sep ++ join sep rest
  end.

Fixpoint dumps (v : json) : str :=
  match v with
  | JNull => lit "null"
  | JBool true => lit "true"
  | JBool false => lit "false"
  | JNum n => repr_int n
  | JStr s => encode_str s
  | JList l => lit "[" ++ join (lit ", ") (List.map dumps l) ++ lit "]"
  | JObj kv =>
      lit "{"
      ++ join (lit ", ")
           (List.map (fun p => encode_str (fst p) ++ lit ": " ++ dumps (snd p)) kv)
      ++ lit "}"
  end.

(** ** Page fetcher: [fetch_page], lines 60-68

    One call of [requests.post] either fails before a response exists
    or produces a response: its status code and what [resp.json()]
    makes of the body ([None] when the body is not JSON). *)

Inductive net_failure := ConnectionFailed | TimedOut.

Inductive post_result :=
| NoResponse (f : net_failure)
| Response (status_code : Z) (body : option json).

Definition exn_of_failure (f : net_failure) : exn :=
  match f with
  | ConnectionFailed => ConnectionError
  | TimedOut => Timeout
  end.

(** [resp.raise_for_status()] *)
Definition raise_for_status (status_code : Z) : res unit :=
  if ((400 <=? status_code) && (status_code <? 600))%Z
  then Raise (HTTPError (Some status_code))
  else Ok tt.

(** The transport: the answer to the POST that carries the variables
    [page] and [perPage]. *)
Definition transport := Z -> Z -> post_result.

Definition fetch_page (post : transport) (page per_page : Z) : res json :=
  match post page per_page with
  | NoResponse f => Raise (exn_of_failure f)
  | Response status_code body =>
      _ <- raise_for_status status_code ;;
      match body with
      | None => Raise JSONDecodeError
      | Some data =>
          has_errors <- py_in (lit "errors") data ;;
          if has_errors : bool then
            errors <- py_item data (lit "errors") ;;
            Raise (RuntimeError errors)
          else
            d <- py_item data (lit "data") ;;
            py_item d (lit "Page")
      end
  end.

(** ** Record mapper: the body of the [for] loop, lines 128-146 *)

Record row := Row {
  id : json;
  title_romaji : json;
  title_english : json;
  description : str;
  genres : str;
  tags : str;
  average_score : json;
  studios : str
}.

(** [[s.get("name") for s in nodes if s and s.get("name")]] *)
Fixpoint names_of (nodes : list json) : res (list json) :=
  match nodes with
  | [] => Ok []
  | s :: rest =>
      keep <- (if truthy s
               then name <- py_get s (lit "name") JNull ;; Ok (truthy name)
               else Ok false) ;;
      if keep : bool then
        name <- py_get s (lit "name") JNull ;;
        names <- names_of rest ;;
        Ok (name :: names)
      else names_of rest
  end.

(** [clean_description(v)] at a value that need not be a string: a
    false value returns the empty string, and [re.sub] rejects a
    non-string. *)
Definition call_clean_description (v : json) : res str :=
  if truthy v then
    match v with
    | JStr s => Ok (clean_description s)
    | _ => Raise TypeError
    end
  else Ok [].

Definition map_item (m : json) : res row :=
  studios <- py_get m (lit "studios") JNull ;;
  nodes <- py_get (py_or studios (JObj [])) (lit "nodes") JNull ;;
  studios_nodes <- py_iter (py_or nodes (JList [])) ;;
  studio_names <- names_of studios_nodes ;;
  tags <- py_get m (lit "tags") JNull ;;
  tags_nodes <- py_iter (py_or tags (JList [])) ;;
  tag_names <- names_of tags_nodes ;;
  id <- py_get m (lit "id") JNull ;;
  title <- py_get m (lit "title") JNull ;;
  title_romaji <- py_get (py_or title (JObj [])) (lit "romaji") JNull ;;
  title <- py_get m (lit "title") JNull ;;
  title_english <- py_get (py_or title (JObj [])) (lit "english") JNull ;;
  description <- py_get m (lit "description") JNull ;;
  description <- call_clean_description (py_or description (JStr [])) ;;
  genres <- py_get m (lit "genres") JNull ;;
  average_score <- py_get m (lit "averageScore") JNull ;;
  Ok {| id := id;
        title_romaji := title_romaji;
        title_english := title_english;
        description := description;
        genres := dumps (py_or genres (JList []));
        tags := dumps (JList tag_names);
        average_score := average_score;
        studios := dumps (JList studio_names) |}.

(** The [for m in media] loop: [rows] after the loop. *)
Fixpoint map_items (media : list json) : res (list row) :=
  match media with
  | [] => Ok []
  | m :: rest =>
      r <- map_item m ;;
      rows <- map_items rest ;;
      Ok (if is_not_None (id r) then r :: rows else rows)
  end.

(** Lines 126-146: from the payload of a page to its rows. *)
Definition page_rows (payload : json) : res (list row) :=
  media <- py_get payload (lit "media") (JList []) ;;
  items <- py_iter media ;;
  map_items items.

(** ** Store: [ensure_schema] and [upsert_batch], lines 70-98

    The table [anime] is a collection of stored rows.  [sqlite3] binds
    the values of a Python row to SQL values before the statement runs;
    that conversion belongs to the library, not to the script, and is a
    parameter [adapt] of the model: it yields the stored form of a row
    or the error of the library. *)

Inductive sqlval :=
| SqlNull
| SqlInt (n : Z)
| SqlText (s : str).

Record anime := Anime {
  col_id : Z;                      (* INTEGER PRIMARY KEY *)
  col_title_romaji : sqlval;
  col_title_english : sqlval;
  col_description : sqlval;
  col_genres : sqlval;
  col_tags : sqlval;
  col_average_score : sqlval;
  col_studios : sqlval
}.

Definition table := list anime.

(** CREATE TABLE IF NOT EXISTS anime (...): a database file without the
    table gets an empty one, an existing table is left as it is. *)
Definition ensure_schema (file : option table) : table :=
  match file with
  | Some t => t
  | None => []
  end.

Definition has_id (i : Z) (t : table) : bool :=
  existsb (fun x => (col_id x =? i)%Z) t.

(** ON CONFLICT(id) DO UPDATE SET ...: the seven other columns of the
    existing row take the values of the proposed row [excluded]. *)
Definition do_update (existing excluded : anime) : anime :=
  {| col_id := col_id existing;
     col_title_romaji := col_title_romaji excluded;
     col_title_english := col_title_english excluded;
     col_description := col_description excluded;
     col_genres := col_genres excluded;
     col_tags := col_tags excluded;
     col_average_score := col_average_score excluded;
     col_studios := col_studios excluded |}.

(** A new row.  The identifier is the key under which SQLite keeps the
    rows of the table ([INTEGER PRIMARY KEY]): the list has the rows in
    the order of the key, and a new row goes before the first row with
    a greater identifier. *)
Fixpoint insert_row (r : anime) (t : table) : table :=
  match t with
  | [] => [r]
  | x :: t' =>
      if (col_id r <? col_id x)%Z then r :: x :: t' else x :: insert_row r t'
  end.

(** INSERT INTO anime ... VALUES ... ON CONFLICT(id) DO UPDATE ... for
    one row of parameters. *)
Definition upsert (t : table) (r : anime) : table :=
  if has_id (col_id r) t
  then List.map (fun x => if (col_id x =? col_id r)%Z then do_update x r else x) t
  else insert_row r t.

Fixpoint adapt_all (adapt : row -> res anime) (rows : list row) : res (list anime) :=
  match rows with
  | [] => Ok []
  | r :: rest =>
      a <- adapt r ;;
      others <- adapt_all adapt rest ;;
      Ok (a :: others)
  end.

(** [conn.executemany(...)] then [conn.commit()].  The statements of
    one call run in one transaction and nothing is committed when a row
    is refused: the result is then the error alone.  [upsert_batch_on]
    below follows the same lines on a connection, statement by
    statement. *)
Definition upsert_batch (adapt : row -> res anime) (conn : table) (rows : list row)
  : res table :=
  bound <- adapt_all adapt rows ;;
  Ok (fold_left upsert bound conn).

(** The conversion of [sqlite3] on rows that have the types of their
    columns: an integer id, texts or NULL for the titles, an integer or
    NULL for the score.  On other rows SQLite converts or refuses by
    rules of its own (the text [5] is stored as the integer 5 under
    [id], a number is stored as text under a title); they are outside
    this instance, whose answer to them is an error that stands for no
    answer of the library.  The instance is used on rows of the column
    types only. *)
Definition text_or_null (v : json) : res sqlval :=
  match v with
  | JNull => Ok SqlNull
  | JStr s => Ok (SqlText s)
  | _ => Raise SqliteError
  end.

(** An integer is bound when it fits in 64 bits. *)
Definition bind_int (n : Z) : res Z :=
  if ((- 2 ^ 63 <=? n) && (n <? 2 ^ 63))%Z then Ok n else Raise OverflowError.

Definition int_or_null (v : json) : res sqlval :=
  match v with
  | JNull => Ok SqlNull
  | JNum n => i <- bind_int n ;; Ok (SqlInt i)
  | _ => Raise SqliteError
  end.

Definition adapt_typed (r : row) : res anime :=
  match id r with
  | JNum n =>
      n <- bind_int n ;;
      romaji <- text_or_null (title_romaji r) ;;
      english <- text_or_null (title_english r) ;;
      score <- int_or_null (average_score r) ;;
      Ok {| col_id := n;
            col_title_romaji := romaji;
            col_title_english := english;
            col_description := SqlText (description r);
            col_genres := SqlText (genres r);
            col_tags := SqlText (tags r);
            col_average_score := score;
            col_studios := SqlText (studios r) |}
  | _ => Raise SqliteError
  end.

(** ** Pipeline driver: [main], lines 100-156 *)

(** A Python [float]: the value of a finite one as a rational, the
    two infinities and NaN ([float] accepts [inf] and [nan], so that
    [--sleep] can hold them). *)
Inductive pyfloat :=
| Finite (q : Q)
| Infinite (negative : bool)
| NaN.

Coercion Finite : Q >-> pyfloat.

Record args := Args {
  pages : Z;          (* --pages *)
  per_page : Z;       (* --per-page *)
  db : str;           (* --db *)
  sleep : pyfloat     (* --sleep, in seconds *)
}.

Definition default_args : args :=
  {| pages := 10; per_page := 50; db := lit "anilist.db"; sleep := (1 # 2)%Q |}.

Inductive notice :=
| Retrying (status : option Z) (page wait : Z)     (* line 122 *)
| Finished (total : Z) (db : str).                 (* line 156 *)

(** What a run does to the outside world, in order. *)
Inductive event :=
| Fetch (page per_page : Z) (result : res json)    (* a call of fetch_page *)
| Write (n : notice)                               (* tqdm.write *)
| Sleep (seconds : pyfloat)                        (* time.sleep *)
| Executemany (rows : list row)                    (* a call of upsert_batch *)
| Update.                                          (* pbar.update(1) *)

Record state := State {
  total_inserted : Z;
  has_next : json;
  page : Z;
  conn : table;          (* committed contents of the table *)
  log : list event
}.

Inductive outcome :=
| Done (st : state)                  (* the loop ended, line 156 was reached *)
| Aborted (e : exn) (st : state)     (* an exception left [main] *)
| Running (st : state).              (* still in the loop *)

Definition is_fetch (e : event) : bool :=
  match e with Fetch _ _ _ => true | _ => false end.

(** Number of calls of [fetch_page] so far. *)
Definition fetches (l : list event) : nat := List.length (filter is_fetch l).

Definition record (st : state) (es : list event) : state :=
  {| total_inserted := total_inserted st;
     has_next := has_next st;
     page := page st;
     conn := conn st;
     log := log st ++ es |}.

(** [time.sleep(secs)] for a float, as CPython 3.11 decides it
    before it pauses.  NaN is refused with [ValueError].  The length
    is counted in nanoseconds, [secs * 1e9] rounded to a double, and
    [OverflowError] is raised when the count is outside [-2^63, 2^63];
    [2^63 - 512] and the two [2^63 + 1024] are where that rounding
    reaches the bounds.  The count is then a 64-bit integer, in which
    [2^63] reads as [-2^63], and a negative count is refused with
    [ValueError].  Otherwise the process pauses; the system call of the
    pause is not part of the model. *)
Definition nanoseconds (q : Q) : Q := (q * inject_Z (10 ^ 9))%Q.

Definition Qlt_bool (x y : Q) : bool := negb (Qle_bool y x).

Definition time_sleep (secs : pyfloat) : res unit :=
  match secs with
  | NaN => Raise ValueError
  | Infinite _ => Raise OverflowError
  | Finite q =>
      let x := nanoseconds q in
      if Qlt_bool x (inject_Z (- 2 ^ 63 - 1024)) || Qlt_bool (inject_Z (2 ^ 63 + 1024)) x
      then Raise OverflowError
      else if Qlt_bool x 0 || Qle_bool (inject_Z (2 ^ 63 - 512)) x
      then Raise ValueError
      else Ok tt
  end.

(** A length that the pause honours whatever the clock of the system
    shows: not negative and at most [2^62] nanoseconds, which leaves
    the deadline, clock plus length, within 64 bits. *)
Definition pause_returns (secs : pyfloat) : bool :=
  match secs with
  | Finite q => Qle_bool 0 (nanoseconds q) && Qle_bool (nanoseconds q) (inject_Z (2 ^ 62))
  | _ => false
  end.

(** [status == 429] *)
Definition status_is (status : option Z) (code : Z) : bool :=
  match status with
  | Some s => (s =? code)%Z
  | None => false
  end.

(** Line 121. *)
Definition retry_wait (status : option Z) : Z :=
  if status_is status 429 then 5 else 3.

Section Driver.

(** The fetcher answers its [k]-th call (counted from 0) for a page
    and a page size; [adapt] is the conversion of the store. *)
Variable fetch : nat -> Z -> Z -> res json.
Variable adapt : row -> res anime.
Variable a : args.

(** Lines 148-150. *)
Definition store_rows (st : state) (rows : list row) : res state :=
  match rows with
  | [] => Ok st
  | _ :: _ =>
      conn' <- upsert_batch adapt (conn st) rows ;;
      Ok {| total_inserted := total_inserted st + Z.of_nat (List.length rows);
            has_next := has_next st;
            page := page st;
            conn := conn';
            log := log st ++ [Executemany rows] |}
  end.

(** Line 152. *)
Definition next_flag (payload : json) : res json :=
  page_info <- py_get payload (lit "pageInfo") JNull ;;
  py_get (py_or page_info (JObj [])) (lit "hasNextPage") (JBool false).

(** Lines 126-155: the rest of a round once the page is there. *)
Definition handle_page (st : state) (payload : json) : outcome :=
  match page_rows payload with
  | Raise e => Aborted e st
  | Ok rows =>
      match store_rows st rows with
      | Raise e => Aborted e (record st [Executemany rows])
      | Ok st1 =>
          match next_flag payload with
          | Raise e => Aborted e st1
          | Ok flag =>
              let st2 := {| total_inserted := total_inserted st1;
                            has_next := flag;
                            page := page st1 + 1;
                            conn := conn st1;
                            log := log st1 ++ [Update; Sleep (sleep a)] |} in
              match time_sleep (sleep a) with
              | Raise e => Aborted e st2
              | Ok _ => Running st2
              end
          end
      end
  end.

(** Line 118: the call of [fetch_page] in state [st]. *)
Definition call_fetch (st : state) : res json :=
  fetch (fetches (log st)) (page st) (per_page a).

(** Lines 117-155: one round of the [while] loop. *)
Definition round (st : state) : outcome :=
  let result := call_fetch st in
  let st0 := record st [Fetch (page st) (per_page a) result] in
  match result with
  | Raise (HTTPError status) =>
      let wait := retry_wait status in
      Running (record st0 [Write (Retrying status (page st) wait);
                           Sleep (inject_Z wait)])
  | Raise e => Aborted e st0
  | Ok payload => handle_page st0 payload
  end.

(** Line 116. *)
Definition loop_test (st : state) : bool :=
  truthy (has_next st) && (page st <=? pages a)%Z.

(** The [while] loop, run for at most [fuel] rounds, and line 156. *)
Fixpoint loop (fuel : nat) (st : state) : outcome :=
  if loop_test st then
    match fuel with
    | O => Running st
    | S fuel' =>
        match round st with
        | Running st' => loop fuel' st'
        | stopped => stopped
        end
    end
  else Done (record st [Write (Finished (total_inserted st) (db a))]).

(** Lines 108-113. *)
Definition initial (file : option table) : state :=
  {| total_inserted := 0;
     has_next := JBool true;
     page := 1;
     conn := ensure_schema file;
     log := [] |}.

Definition main (fuel : nat) (file : option table) : outcome :=
  loop fuel (initial file).

End Driver.

(** [main] over a network: the [k]-th POST of the run is answered by
    [net k]. *)
Definition main_on (net : nat -> transport) :=
  main (fun k => fetch_page (net k)).

(** ** Notions the statements are written with *)

(** The value of a field of an item; a missing field reads as [None],
    as with [m.get(key)]. *)
Definition field (key : str) (m : json) : json :=
  match m with
  | JObj kv => match lookup key kv with Some v => v | None => JNull end
  | _ => JNull
  end.

(** The identifier of an item, [None] when absent. *)
Definition item_id (m : json) : json := field (lit "id") m.

Definition has_identifier (m : json) : bool := is_not_None (item_id m).

Definition is_obj (v : json) : bool :=
  match v with JObj _ => true | _ => false end.

Definition is_string (v : json) : bool :=
  match v with JStr _ => true | _ => false end.

Definition is_list_of (p : json -> bool) (v : json) : bool :=
  match v with JList l => forallb p l | _ => false end.

Definition optional (p : json -> bool) (v : json) : bool :=
  match v with JNull => true | _ => p v end.

(** A list of name-carrying objects in which entries may be null. *)
Definition is_nodes (v : json) : bool := is_list_of (optional is_obj) v.

(** An item as the query returns it: an object whose nested fields,
    when present and not null, have the kind the query asks for.  The
    identifier, the genres and the score may hold any value. *)
Definition is_raw_item (m : json) : bool :=
  is_obj m
  && optional is_nodes (field (lit "tags") m)
  && optional (fun s => is_obj s && optional is_nodes (field (lit "nodes") s))
       (field (lit "studios") m)
  && optional is_obj (field (lit "title") m)
  && optional is_string (field (lit "description") m).

(** The items of a page. *)
Definition media_of (payload : json) : list json :=
  match field (lit "media") payload with
  | JList l => l
  | _ => []
  end.

(** Number of items of a page that carry an identifier. *)
Definition ids_on_page (payload : json) : nat :=
  List.length (filter has_identifier (media_of payload)).

(** SELECT * FROM anime WHERE id = i *)
Definition select (i : Z) (t : table) : table :=
  filter (fun x => (col_id x =? i)%Z) t.

(** The last row of a batch that carries the identifier [i]. *)
Fixpoint last_with_id (i : Z) (batch : list anime) : option anime :=
  match batch with
  | [] => None
  | r :: rest =>
      match last_with_id i rest with
      | Some x => Some x
      | None => if (col_id r =? i)%Z then Some r else None
      end
  end.

(** Each identifier determines at most one row. *)
Definition unique_ids (t : table) : Prop := NoDup (List.map col_id t).

(** The payloads that the calls of [fetch_page] returned, in order. *)
Definition fetched_page (e : event) : list json :=
  match e with
  | Fetch _ _ (Ok payload) => [payload]
  | _ => []
  end.

Definition fetched (l : list event) : list json := flat_map fetched_page l.

Definition is_fetch_of (p : Z) (e : event) : bool :=
  match e with Fetch q _ _ => (q =? p)%Z | _ => false end.

(** Number of calls of [fetch_page] for page [p]. *)
Definition fetches_of (p : Z) (l : list event) : nat :=
  List.length (filter (is_fetch_of p) l).

Definition is_executemany (e : event) : bool :=
  match e with Executemany _ => true | _ => false end.

(** The batches handed to [upsert_batch], in order. *)
Definition batches (l : list event) : list event := filter is_executemany l.

Definition final_state (o : outcome) : state :=
  match o with
  | Done st | Aborted _ st | Running st => st
  end.

Fixpoint sum (l : list nat) : nat :=
  match l with
  | [] => 0
  | n :: rest => n + sum rest
  end.

(** The state after a round in which the fetch raised [HTTPError]. *)
Definition after_retry (a : args) (st : state) (status : option Z) : state :=
  record st [Fetch (page st) (per_page a) (Raise (HTTPError status));
             Write (Retrying status (page st) (retry_wait status));
             Sleep (inject_Z (retry_wait status))].

(** The state after a round that fetched a page, mapped it to [rows],
    stored them as [bound] and read the continuation flag [flag]. *)
Definition after_page (a : args) (st : state) (payload : json)
           (rows : list row) (bound : list anime) (flag : json) : state :=
  {| total_inserted := total_inserted st + Z.of_nat (List.length rows);
     has_next := flag;
     page := page st + 1;
     conn := fold_left upsert bound (conn st);
     log := log st
            ++ [Fetch (page st) (per_page a) (Ok payload)]
            ++ match rows with [] => [] | _ :: _ => [Executemany rows] end
            ++ [Update; Sleep (sleep a)] |}.

(** A page that the loop handles to the end: it is mapped to [rows],
    the store accepts them as [bound], and the flag can be read. *)
Definition handled (adapt : row -> res anime) (payload : json)
           (rows : list row) (bound : list anime) (flag : json) : Prop :=
  page_rows payload = Ok rows
  /\ adapt_all adapt rows = Ok bound
  /\ next_flag payload = Ok flag.

(** The total agrees with the pages fetched so far. *)
Definition counted (st : state) : Prop :=
  total_inserted st = Z.of_nat (sum (List.map ids_on_page (fetched (log st)))).

(** ** Data of the examples *)

Definition quote : char := 34%N.

(** {id:5, title:{romaji:"X"}, tags:[{name:"A"},null,{name:null}], studios:null} *)
Definition item5 : json :=
  JObj [(lit "id", JNum 5);
        (lit "title", JObj [(lit "romaji", JStr (lit "X"))]);
        (lit "tags", JList [JObj [(lit "name", JStr (lit "A"))];
                            JNull;
                            JObj [(lit "name", JNull)]]);
        (lit "studios", JNull)].

Definition row5 : row :=
  {| id := JNum 5;
     title_romaji := JStr (lit "X");
     title_english := JNull;
     description := [];
     genres := lit "[]";
     tags := lit "[" ++ [quote] ++ lit "A" ++ [quote] ++ lit "]";
     average_score := JNull;
     studios := lit "[]" |}.

(** An item with a title and the identifier [i] (any JSON value). *)
Definition titled (i : json) (name : string) : json :=
  JObj [(lit "id", i); (lit "title", JObj [(lit "romaji", JStr (lit name))])].

Definition page_of (items : list json) (has_more : bool) : json :=
  JObj [(lit "pageInfo", JObj [(lit "hasNextPage", JBool has_more)]);
        (lit "media", JList items)].

(** A page with one item without identifier between two that have one. *)
Definition mixed_page : json :=
  page_of [titled (JNum 1) "One"; titled JNull "Nameless"; item5] false.

Definition row1 : row :=
  {| id := JNum 1;
     title_romaji := JStr (lit "One");
     title_english := JNull;
     description := [];
     genres := lit "[]";
     tags := lit "[]";
     average_score := JNull;
     studios := lit "[]" |}.

Definition mixed_rows : list row := [row1; row5].

(** Two field sets for identifier 7. *)
Definition row7A : row :=
  {| id := JNum 7;
     title_romaji := JStr (lit "A");
     title_english := JStr (lit "A-en");
     description := lit "first";
     genres := lit "[]";
     tags := lit "[]";
     average_score := JNum 70;
     studios := lit "[]" |}.

Definition row7B : row :=
  {| id := JNum 7;
     title_romaji := JStr (lit "B");
     title_english := JNull;
     description := lit "second";
     genres := lit "[]";
     tags := lit "[]";
     average_score := JNull;
     studios := lit "[]" |}.

Definition stored (r : row) : anime :=
  match adapt_typed r with
  | Ok x => x
  | Raise _ => Anime 0 SqlNull SqlNull SqlNull SqlNull SqlNull SqlNull SqlNull
  end.

(** The row of [titled (JNum p) "T"]. *)
Definition rowT (p : Z) : row :=
  {| id := JNum p;
     title_romaji := JStr (lit "T");
     title_english := JNull;
     description := [];
     genres := lit "[]";
     tags := lit "[]";
     average_score := JNull;
     studios := lit "[]" |}.

(** Fetchers: every page has a successor and carries the same item;
    the first page is the last; the second call, for page 2, is
    answered with status 429. *)
Definition endless : nat -> Z -> Z -> res json :=
  fun _ _ _ => Ok (page_of [titled (JNum 1) "T"] true).

Definition single : nat -> Z -> Z -> res json :=
  fun _ _ _ => Ok mixed_page.

Definition limited_once : nat -> Z -> Z -> res json :=
  fun k p _ =>
    if (k =? 1)%nat then Raise (HTTPError (Some 429%Z))
    else Ok (page_of [titled (JNum p) "T"] (p <? 2)%Z).

(** Networks: no answer in time; an error status on the first call. *)
Definition net_timeout : nat -> transport :=
  fun _ _ _ => NoResponse TimedOut.

Definition net_refused : nat -> transport :=
  fun _ _ _ => NoResponse ConnectionFailed.

Definition net_busy_once : nat -> transport :=
  fun k _ _ =>
    match k with
    | O => Response 503 None
    | S _ => Response 200 (Some (JObj [(lit "data", JObj [(lit "Page", mixed_page)])]))
    end.

Definition args_of (n : Z) : args :=
  {| pages := n; per_page := 50; db := lit "anilist.db"; sleep := (1 # 2)%Q |}.

(** Texts of the examples of the normalizer. *)
Definition amp_lt : str := lit "&amp;lt;".
Definition amp_amp : str := lit "&amp;amp;".
Definition spaced_lines : str := lit "a " ++ [NL] ++ lit "b".
Definition plain_text : str := [NL] ++ lit "  3 > 2 & 1 < 2 " ++ [NL; NL].
Definition marked_text : str := lit " Line1<br/>Line2 <b>bold</b>&amp;more " ++ [NL; NL].

(** ** Notions of the further properties *)

Definition AMP : char := 38%N.       (* "&" *)

(** [clean_description] with line 57 left out. *)
Definition clean_description_56 (text : str) : str :=
  match text with
  | [] => []
  | _ :: _ =>
      let text := Re.sub true re_br [NL] text in
      let text := Re.sub false re_tag [] text in
      let text := decode_entities text in
      let text := Re.sub false re_space_nl [NL] text in
      strip text
  end.

(** A node that the comprehension of lines 130 and 132 can look at:
    a false value, which it skips, or an object. *)
Definition is_node (s : json) : bool := negb (truthy s) || is_obj s.

(** The names the comprehension keeps. *)
Definition kept_names (nodes : list json) : list json :=
  filter truthy (List.map (field (lit "name")) (filter truthy nodes)).

Definition all_truthy (names : list json) : bool := forallb truthy names.

Definition is_update (e : event) : bool :=
  match e with Update => true | _ => false end.

Definition is_retry_notice (e : event) : bool :=
  match e with Write (Retrying _ _ _) => true | _ => false end.

Definition count (p : event -> bool) (l : list event) : nat :=
  List.length (filter p l).

(** A fetch asked for a page of the budget, with the page size of the
    command line. *)
Definition fetch_in_budget (a : args) (e : event) : Prop :=
  match e with
  | Fetch p pp _ => (1 <= p <= pages a)%Z /\ pp = per_page a
  | _ => True
  end.

(** [bound] is what the store made of the rows of [payload]. *)
Definition stored_as (adapt : row -> res anime) (payload : json) (bound : list anime)
  : Prop :=
  exists rows, page_rows payload = Ok rows /\ adapt_all adapt rows = Ok bound.

(** Data of the examples. *)
Definition blank_text : str := lit "  " ++ [NL; 9%N; NL] ++ lit " ".
Definition tagged_text : str := lit "a <<i>b</i> > <br/> c<>d".

Definition broken_page : json :=
  page_of [titled (JNum 1) "One"; JNull; item5] true.

Definition net_down : nat -> transport :=
  fun _ _ _ => Response 503 None.

Definition sparse_item : json := JObj [(lit "id", JNum 9)].

Definition args_sleeping (secs : pyfloat) : args :=
  {| pages := 3; per_page := 50; db := lit "anilist.db"; sleep := secs |}.

Definition row_big : row :=
  {| id := JNum (2 ^ 63);
     title_romaji := JStr (lit "Big");
     title_english := JNull;
     description := [];
     genres := lit "[]";
     tags := lit "[]";
     average_score := JNull;
     studios := lit "[]" |}.

(** A network that answers the first call with a page that has a
    successor and lets every later call time out. *)
Definition net_stalls_on_page2 : nat -> transport :=
  fun k p _ =>
    match k with
    | O => Response 200
             (Some (JObj [(lit "data",
                           JObj [(lit "Page", page_of [titled (JNum p) "T"] true)])]))
    | S _ => NoResponse TimedOut
    end.

(** ** The transaction of [upsert_batch], lines 86-98

    A connection: the table that the database file holds and, while a
    transaction is open, the table as the transaction has it.  Only
    [commit] moves the second into the first; a connection that is
    dropped with a transaction open leaves the file as it was. *)
Record connection := Connection {
  committed : table;
  in_transaction : option table
}.

Definition view (c : connection) : table :=
  match in_transaction c with
  | Some t => t
  | None => committed c
  end.

(** [sqlite3] opens a transaction before the first row of an INSERT
    is bound, also when there is no row. *)
Definition begin_transaction (c : connection) : connection :=
  {| committed := committed c; in_transaction := Some (view c) |}.

(** The rows of [executemany], each bound and then run as one
    statement, up to the first row that is refused. *)
Fixpoint execute_rows (adapt : row -> res anime) (c : connection) (rows : list row)
  : connection * option exn :=
  match rows with
  | [] => (c, None)
  | r :: rest =>
      match adapt r with
      | Raise e => (c, Some e)
      | Ok b =>
          execute_rows adapt
            {| committed := committed c; in_transaction := Some (upsert (view c) b) |}
            rest
      end
  end.

(** Line 86. *)
Definition executemany (adapt : row -> res anime) (c : connection) (rows : list row)
  : connection * option exn :=
  execute_rows adapt (begin_transaction c) rows.

(** Line 98. *)
Definition commit (c : connection) : connection :=
  {| committed := view c; in_transaction := None |}.

(** Lines 86-98 on a connection: line 98 is reached when line 86
    raised nothing. *)
Definition upsert_batch_on (adapt : row -> res anime) (c : connection) (rows : list row)
  : connection * option exn :=
  match executemany adapt c rows with
  | (c', None) => (commit c', None)
  | (c', Some e) => (c', Some e)
  end.

(** * Properties *)

(** ** The matcher and the string operations *)

Module ReFacts.
Import Re.

(** A successful [rep] has consumed a word of the class whose length
    respects both bounds, and the continuation succeeded on the rest. *)
Lemma rep_sound p lo hi k s r :
  rep p lo hi k s = Some r ->
  exists w s2,
    s = w ++ s2 /\ forallb p w = true /\ (lo <= length w)%nat
    /\ Re.within (length w) hi /\ k s2 = Some r.
Proof.
  revert lo hi.
  assert (stop_case : forall lo hi s0,
             match lo with 0%nat => k s0 | S _ => None end = Some r ->
             exists w s2, s0 = w ++ s2 /\ forallb p w = true /\ (lo <= length w)%nat
                          /\ Re.within (length w) hi /\ k s2 = Some r).
  { intros lo hi s0 H. destruct lo; [|discriminate].
    exists [], s0. repeat split; auto. destruct hi; simpl; lia. }
  induction s as [|c s IH]; intros lo hi H; simpl in H.
  - now apply stop_case.
  - destruct (p c && room hi) eqn:E; [|now apply stop_case].
    destruct (rep p (pred lo) (less hi) k s) eqn:R; [|now apply stop_case].
    inversion H; subst; clear H.
    apply IH in R as (w & s2 & -> & Hw & Hlo & Hhi & Hk).
    apply andb_true_iff in E as [Hc Hroom].
    exists (c :: w), s2. simpl. rewrite Hc, Hw.
    repeat split; auto; try lia.
    destruct hi as [[|m]|]; simpl in *; try discriminate; auto; lia.
Qed.

(** Where the pattern matches at no position, [sub] changes nothing. *)
Lemma sub_loop_id ic re repl fuel :
  forall text,
    (forall pre t, text = pre ++ t -> match_here ic re t = None) ->
    sub_loop fuel ic re repl text = text.
Proof.
  induction fuel as [|fuel IH]; intros text H; simpl; auto.
  destruct text as [|c text']; auto.
  rewrite (H [] (c :: text') eq_refl). f_equal.
  apply IH. intros pre t ->. now apply (H (c :: pre) t).
Qed.

Lemma sub_id ic re repl text :
  (forall pre t, text = pre ++ t -> match_here ic re t = None) ->
  sub ic re repl text = text.
Proof. apply sub_loop_id. Qed.

End ReFacts.

Lemma replace_loop_id old new fuel :
  forall s, contains old s = false -> replace_loop fuel old new s = s.
Proof.
  induction fuel as [|fuel IH]; intros s H; simpl; auto.
  destruct s as [|c s']; auto.
  simpl in H. destruct (strip_prefix old (c :: s')); [discriminate|].
  f_equal. now apply IH.
Qed.

Lemma replace_id old new s :
  old <> [] -> contains old s = false -> replace old new s = s.
Proof.
  intros Hne H. destruct old; [congruence|]. now apply replace_loop_id.
Qed.

(** *** Markup *)

Lemma has_markup_app pre t :
  has_markup t = true -> has_markup (pre ++ t) = true.
Proof.
  intros H. induction pre as [|c pre IH]; simpl; auto.
  rewrite IH. apply orb_true_r.
Qed.

Lemma markup_intro c1 c2 rest :
  c1 = LT -> c2 <> GT -> existsb (N.eqb GT) rest = true ->
  has_markup (c1 :: c2 :: rest) = true.
Proof.
  intros -> Hc Hr. cbn [has_markup opens]. rewrite Hr, N.eqb_refl.
  apply N.eqb_neq in Hc. now rewrite Hc.
Qed.

Lemma one_char (w : str) : (1 <= length w)%nat -> (length w <= 1)%nat -> exists c, w = [c].
Proof.
  destruct w as [|c [|d w]]; simpl; intros; try lia. now exists c.
Qed.

Lemma fold_case_inv c a :
  Re.fold_case c = a -> c = a \/ ((c + 32 = a)%N /\ (65 <= c <= 90)%N).
Proof.
  unfold Re.fold_case.
  destruct (N.leb_spec 65 c), (N.leb_spec c 90); simpl; intros; auto.
Qed.

Lemma match_tag_markup t r :
  Re.match_here false re_tag t = Some r -> has_markup t = true.
Proof.
  unfold re_tag. cbn [Re.match_here Re.one Re.plus Re.cls Re.rmin Re.rmax].
  intros H.
  apply ReFacts.rep_sound in H as (w1 & s1 & -> & Hw1 & Hlo1 & Hhi1 & H).
  apply ReFacts.rep_sound in H as (w2 & s2 & -> & Hw2 & Hlo2 & _ & H).
  apply ReFacts.rep_sound in H as (w3 & s3 & -> & Hw3 & Hlo3 & Hhi3 & H).
  destruct (one_char w1 Hlo1 Hhi1) as [c1 ->].
  destruct (one_char w3 Hlo3 Hhi3) as [c3 ->].
  destruct w2 as [|c2 w2]; [simpl in Hlo2; lia|].
  cbn in Hw1, Hw2, Hw3.
  rewrite andb_true_r in Hw1, Hw3.
  apply andb_true_iff in Hw2 as [Hc2 _].
  apply N.eqb_eq in Hw1, Hw3. subst c1 c3.
  cbn [app]. apply markup_intro; auto.
  - intros ->. now rewrite N.eqb_refl in Hc2.
  - rewrite existsb_app. cbn. rewrite orb_true_r. reflexivity.
Qed.

Lemma match_br_markup t r :
  Re.match_here true re_br t = Some r -> has_markup t = true.
Proof.
  unfold re_br.
  cbn [Re.match_here Re.one Re.star Re.opt Re.cls Re.rmin Re.rmax].
  intros H.
  apply ReFacts.rep_sound in H as (w1 & s1 & -> & Hw1 & Hlo1 & Hhi1 & H).
  apply ReFacts.rep_sound in H as (w2 & s2 & -> & Hw2 & Hlo2 & Hhi2 & H).
  apply ReFacts.rep_sound in H as (w3 & s3 & -> & Hw3 & Hlo3 & Hhi3 & H).
  apply ReFacts.rep_sound in H as (w4 & s4 & -> & Hw4 & _ & _ & H).
  apply ReFacts.rep_sound in H as (w5 & s5 & -> & Hw5 & _ & _ & H).
  apply ReFacts.rep_sound in H as (w6 & s6 & -> & Hw6 & Hlo6 & Hhi6 & H).
  destruct (one_char w1 Hlo1 Hhi1) as [c1 ->].
  destruct (one_char w2 Hlo2 Hhi2) as [c2 ->].
  destruct (one_char w6 Hlo6 Hhi6) as [c6 ->].
  cbn [forallb Re.in_class] in Hw1, Hw2, Hw6.
  rewrite andb_true_r in Hw1, Hw2, Hw6.
  apply N.eqb_eq, fold_case_inv in Hw1, Hw2, Hw6.
  change (Re.fold_case LT) with 60%N in Hw1.
  change (Re.fold_case 98%N) with 98%N in Hw2.
  change (Re.fold_case GT) with 62%N in Hw6.
  cbn [app]. apply markup_intro.
  - unfold LT. lia.
  - unfold GT. lia.
  - rewrite !existsb_app. cbn [existsb].
    assert (c6 = GT) as -> by (unfold GT; lia).
    rewrite N.eqb_refl. rewrite !orb_true_r. reflexivity.
Qed.

(** *** Whitespace before a newline *)

Lemma space_before_nl_app_r pre t :
  space_before_nl t = true -> space_before_nl (pre ++ t) = true.
Proof.
  intros H. induction pre as [|c pre IH]; simpl; auto.
  rewrite IH. apply orb_true_r.
Qed.

Lemma space_before_nl_app_l w t :
  space_before_nl w = true -> space_before_nl (w ++ t) = true.
Proof.
  induction w as [|c w IH]; simpl; [discriminate|].
  intros H. apply orb_true_iff in H as [H|H].
  - destruct w as [|d w]; simpl in *.
    + now rewrite andb_false_r in H.
    + now rewrite H.
  - rewrite (IH H). apply orb_true_r.
Qed.

Lemma match_nl3_shape t r :
  Re.match_here false re_nl3 t = Some r -> space_before_nl t = true.
Proof.
  unfold re_nl3. cbn [Re.match_here Re.at_least Re.cls Re.rmin Re.rmax].
  intros H.
  apply ReFacts.rep_sound in H as (w & s & -> & Hw & Hlo & _ & _).
  destruct w as [|c1 [|c2 w]]; simpl in Hlo; try lia.
  cbn in Hw.
  apply andb_true_iff in Hw as [H1 Hw]. apply andb_true_iff in Hw as [H2 _].
  apply N.eqb_eq in H1, H2. subst. reflexivity.
Qed.

(** The matcher on [\s+\n], in closed form. *)
Lemma rep_nl_eq s :
  Re.rep (Re.in_class false (Re.Chr NL)) 1 (Some 1) (fun x => Some x) s = after_nl s.
Proof.
  destruct s as [|c s]; [reflexivity|].
  cbn [Re.rep Re.in_class after_nl Re.room]. rewrite andb_true_r.
  destruct (c =? NL)%N; [|reflexivity].
  destruct s as [|d s]; cbn; [reflexivity|].
  now rewrite andb_false_r.
Qed.

Lemma isspace_NL c : (c =? NL)%N = true -> isspace c = true.
Proof. intros H. apply N.eqb_eq in H. now subst. Qed.

Lemma after_nl_space c s : isspace c = false -> after_nl (c :: s) = None.
Proof.
  intros H. simpl. destruct (c =? NL)%N eqn:E; auto.
  apply isspace_NL in E. congruence.
Qed.

Lemma rep_star_cons p k c s :
  Re.rep p 0 None k (c :: s)
  = if p c then
      match Re.rep p 0 None k s with
      | Some r => Some r
      | None => k (c :: s)
      end
    else k (c :: s).
Proof. simpl. now rewrite andb_true_r. Qed.

Lemma rep_space_eq s :
  Re.rep (Re.in_class false Re.Space) 0 None
    (Re.rep (Re.in_class false (Re.Chr NL)) 1 (Some 1) (fun x => Some x)) s
  = last_nl_of_run s.
Proof.
  induction s as [|c s IH]; [reflexivity|].
  rewrite rep_star_cons, IH, rep_nl_eq.
  change (Re.in_class false Re.Space c) with (isspace c).
  cbn [last_nl_of_run].
  destruct (isspace c) eqn:E; auto.
  now apply after_nl_space.
Qed.

Lemma match_space_nl_eq s :
  Re.match_here false re_space_nl s
  = match s with
    | c :: s' => if isspace c then last_nl_of_run s' else None
    | [] => None
    end.
Proof.
  unfold re_space_nl. cbn [Re.match_here Re.one Re.plus Re.cls Re.rmin Re.rmax].
  destruct s as [|c s]; [reflexivity|].
  cbn [Re.rep Re.room pred Re.less option_map].
  rewrite rep_space_eq.
  change (Re.in_class false Re.Space c) with (isspace c).
  rewrite andb_true_r.
  destruct (isspace c); auto. now destruct (last_nl_of_run s).
Qed.

Lemma last_nl_some s r :
  last_nl_of_run s = Some r ->
  last_nl_of_run r = None /\ (length r < length s)%nat.
Proof.
  revert r. induction s as [|c s IH]; intros r H; simpl in H; [discriminate|].
  destruct (isspace c); [|discriminate].
  destruct (last_nl_of_run s) as [r0|] eqn:E.
  - inversion H; subst. destruct (IH r eq_refl). simpl. split; auto; lia.
  - destruct (c =? NL)%N; [|discriminate]. inversion H; subst.
    simpl. split; auto; lia.
Qed.

Lemma starts_nl_run u : starts_with_nl u = true -> last_nl_of_run u <> None.
Proof.
  destruct u as [|c u]; simpl; [discriminate|]. intros H.
  rewrite (isspace_NL _ H), H. now destruct (last_nl_of_run u).
Qed.

Lemma head_sub_space_nl fuel u :
  starts_with_nl (Re.sub_loop fuel false re_space_nl [NL] u) = true ->
  last_nl_of_run u <> None.
Proof.
  destruct fuel as [|fuel]; cbn [Re.sub_loop]; [apply starts_nl_run|].
  destruct u as [|c u]; [discriminate|].
  rewrite match_space_nl_eq.
  destruct (isspace c) eqn:Ec.
  - destruct (last_nl_of_run u) as [rest|] eqn:E.
    + intros _. simpl. rewrite Ec, E. discriminate.
    + intros H. now apply starts_nl_run.
  - intros H. cbn in H. apply isspace_NL in H. congruence.
Qed.

(** What [\s+\n] returns has no whitespace left before a newline. *)
Lemma sub_space_nl_clean fuel :
  forall u, (length u <= fuel)%nat ->
            space_before_nl (Re.sub_loop fuel false re_space_nl [NL] u) = false.
Proof.
  induction fuel as [|fuel IH]; intros u Hlen.
  - destruct u; [reflexivity|simpl in Hlen; lia].
  - cbn [Re.sub_loop]. destruct u as [|c u]; [reflexivity|].
    simpl in Hlen. rewrite match_space_nl_eq.
    assert (copy : (isspace c = false \/ last_nl_of_run u = None) ->
                   space_before_nl (c :: Re.sub_loop fuel false re_space_nl [NL] u) = false).
    { intros Hc. cbn [space_before_nl]. rewrite IH by lia. rewrite orb_false_r.
      destruct (isspace c) eqn:Ec; [|reflexivity].
      destruct Hc as [Hc|Hc]; [discriminate|].
      destruct (starts_with_nl _) eqn:Es; [|reflexivity].
      now apply head_sub_space_nl in Es. }
    destruct (isspace c) eqn:Ec; [|apply copy; auto].
    destruct (last_nl_of_run u) as [rest|] eqn:E; [|apply copy; auto].
    destruct (last_nl_some _ _ E) as [Hrest Hlt].
    assert ((length rest <? length (c :: u))%nat = true) as ->
        by (apply Nat.ltb_lt; simpl; lia).
    cbn [app space_before_nl]. rewrite IH by lia. rewrite orb_false_r.
    destruct (starts_with_nl _) eqn:Es; [|reflexivity].
    now apply head_sub_space_nl in Es.
Qed.

(** *** [strip] *)

Lemma lstrip_split s : exists w, s = w ++ lstrip s.
Proof.
  induction s as [|c s [w IH]]; [now exists []|].
  simpl. destruct (isspace c).
  - exists (c :: w). simpl. now f_equal.
  - now exists [].
Qed.

Lemma rstrip_split s : exists w, s = rstrip s ++ w.
Proof.
  unfold rstrip. destruct (lstrip_split (rev s)) as [w H].
  exists (rev w). rewrite <- rev_app_distr, <- H. now rewrite rev_involutive.
Qed.

Lemma lstrip_clean s : starts_clean (lstrip s) = true.
Proof.
  induction s as [|c s IH]; [reflexivity|].
  simpl. destruct (isspace c) eqn:E; auto. simpl. now rewrite E.
Qed.

Lemma lstrip_id s : starts_clean s = true -> lstrip s = s.
Proof.
  destruct s as [|c s]; simpl; auto.
  destruct (isspace c); [discriminate|reflexivity].
Qed.

Lemma rstrip_starts_clean s : starts_clean s = true -> starts_clean (rstrip s) = true.
Proof.
  intros H. destruct (rstrip_split s) as [w Hw].
  destruct (rstrip s) as [|c t]; [reflexivity|].
  rewrite Hw in H. exact H.
Qed.

Lemma strip_strip s : strip (strip s) = strip s.
Proof.
  unfold strip at 1.
  rewrite (lstrip_id (strip s)).
  - unfold strip, rstrip. rewrite rev_involutive.
    rewrite (lstrip_id (lstrip _)) by apply lstrip_clean. reflexivity.
  - apply rstrip_starts_clean, lstrip_clean.
Qed.

Lemma strip_space_before_nl s :
  space_before_nl s = false -> space_before_nl (strip s) = false.
Proof.
  intros H. unfold strip.
  destruct (lstrip_split s) as [w1 H1].
  destruct (rstrip_split (lstrip s)) as [w2 H2].
  destruct (space_before_nl (rstrip (lstrip s))) eqn:E; [|reflexivity].
  apply (space_before_nl_app_l _ w2) in E. rewrite <- H2 in E.
  apply (space_before_nl_app_r w1) in E. rewrite <- H1 in E. congruence.
Qed.

(** *** [sub] as a recursive equation *)

(** A match takes at least [min_len] characters: none of the four
    patterns of the script matches the empty string. *)
Lemma match_here_progress ic re :
  forall s r,
    Re.match_here ic re s = Some r ->
    (length r + Re.min_len re <= length s)%nat.
Proof.
  induction re as [|a re IH]; intros s r H; cbn [Re.match_here Re.min_len] in *.
  - inversion H; subst. lia.
  - apply ReFacts.rep_sound in H as (w & s2 & -> & _ & Hlo & _ & H).
    apply IH in H. rewrite length_app. lia.
Qed.

Lemma patterns_consume s r :
  (Re.match_here true re_br s = Some r
   \/ Re.match_here false re_tag s = Some r
   \/ Re.match_here false re_space_nl s = Some r
   \/ Re.match_here false re_nl3 s = Some r) ->
  (length r < length s)%nat.
Proof.
  intros [H|[H|[H|H]]]; apply match_here_progress in H; cbn in H; lia.
Qed.

Lemma sub_loop_fuel ic re repl f1 :
  forall f2 s,
    (length s <= f1)%nat -> (length s <= f2)%nat ->
    Re.sub_loop f1 ic re repl s = Re.sub_loop f2 ic re repl s.
Proof.
  induction f1 as [|f1 IH]; intros f2 s H1 H2.
  - destruct s; [|simpl in H1; lia]. now destruct f2.
  - destruct s as [|c s]; [now destruct f2|].
    destruct f2 as [|f2]; [simpl in H2; lia|].
    simpl in H1, H2. cbn [Re.sub_loop].
    destruct (Re.match_here ic re (c :: s)) as [rest|].
    + destruct (Nat.ltb_spec (length rest) (length (c :: s))) as [Hlt|_].
      * simpl in Hlt. f_equal. apply IH; lia.
      * f_equal. apply IH; lia.
    + f_equal. apply IH; lia.
Qed.

Lemma sub_space_nl_cons c t :
  Re.sub false re_space_nl [NL] (c :: t)
  = if isspace c then
      match last_nl_of_run t with
      | Some rest => NL :: Re.sub false re_space_nl [NL] rest
      | None => c :: Re.sub false re_space_nl [NL] t
      end
    else c :: Re.sub false re_space_nl [NL] t.
Proof.
  unfold Re.sub. cbn [length Re.sub_loop]. rewrite match_space_nl_eq.
  destruct (isspace c); [|reflexivity].
  destruct (last_nl_of_run t) as [rest|] eqn:E; [|reflexivity].
  destruct (last_nl_some _ _ E) as [_ Hlt].
  assert ((length rest <? S (length t))%nat = true) as ->
      by (apply Nat.ltb_lt; lia).
  cbn [app]. f_equal. apply sub_loop_fuel; lia.
Qed.

(** *** Whitespace around a text *)

Lemma last_nl_suffix s :
  forall r, last_nl_of_run s = Some r ->
            exists pre, s = pre ++ r /\ forallb isspace pre = true.
Proof.
  induction s as [|c s IH]; intros r H; simpl in H; [discriminate|].
  destruct (isspace c) eqn:Ec; [|discriminate].
  destruct (last_nl_of_run s) as [r0|].
  - inversion H; subst. destruct (IH r eq_refl) as (pre & -> & Hpre).
    exists (c :: pre). simpl. now rewrite Ec, Hpre.
  - destruct (c =? NL)%N; [|discriminate]. inversion H; subst.
    exists [c]. simpl. now rewrite Ec.
Qed.

Lemma last_nl_clean t : starts_clean t = true -> last_nl_of_run t = None.
Proof.
  destruct t as [|d t]; simpl; auto.
  destruct (isspace d); [discriminate|reflexivity].
Qed.

Lemma last_nl_app w t :
  forallb isspace w = true ->
  starts_clean t = true ->
  last_nl_of_run (w ++ t) = option_map (fun r => r ++ t) (last_nl_of_run w).
Proof.
  intros Hw Ht. induction w as [|c w IH]; [now apply last_nl_clean|].
  simpl in Hw. apply andb_true_iff in Hw as [Hc Hw].
  cbn [app last_nl_of_run]. rewrite Hc, (IH Hw).
  destruct (last_nl_of_run w); [reflexivity|].
  cbn [after_nl]. now destruct (c =? NL)%N.
Qed.

Lemma forallb_app_ws (a b : str) :
  forallb isspace (a ++ b) = forallb isspace a && forallb isspace b.
Proof. induction a; simpl; auto. now rewrite IHa, andb_assoc. Qed.

(** Leading whitespace stays whitespace, and what follows is treated
    on its own. *)
Lemma sub_space_nl_lead n :
  forall w t,
    (length w <= n)%nat ->
    forallb isspace w = true ->
    starts_clean t = true ->
    exists w',
      forallb isspace w' = true
      /\ Re.sub false re_space_nl [NL] (w ++ t) = w' ++ Re.sub false re_space_nl [NL] t.
Proof.
  induction n as [|n IH]; intros w t Hlen Hw Ht.
  - destruct w; [|simpl in Hlen; lia]. now exists [].
  - destruct w as [|c w]; [now exists []|].
    simpl in Hlen, Hw. apply andb_true_iff in Hw as [Hc Hw].
    cbn [app]. rewrite sub_space_nl_cons, Hc, (last_nl_app w t Hw Ht).
    destruct (last_nl_of_run w) as [r|] eqn:E; cbn [option_map].
    + destruct (last_nl_suffix _ _ E) as (pre & Hpre & _).
      destruct (last_nl_some _ _ E) as [_ Hlt].
      destruct (IH r t) as (w' & Hw' & ->); auto; try lia.
      * rewrite Hpre, forallb_app_ws in Hw. now apply andb_true_iff in Hw as [_ ?].
      * exists (NL :: w'). split; [exact Hw'|reflexivity].
    + destruct (IH w t) as (w' & Hw' & ->); auto; try lia.
      exists (c :: w'). split; [simpl; now rewrite Hc|reflexivity].
Qed.

Lemma sub_space_nl_ws w :
  forallb isspace w = true -> forallb isspace (Re.sub false re_space_nl [NL] w) = true.
Proof.
  intros Hw.
  destruct (sub_space_nl_lead (length w) w [] (le_n _) Hw eq_refl) as (w' & Hw' & H).
  rewrite app_nil_r in H. rewrite H. change (Re.sub false re_space_nl [NL] []) with (@nil char).
  now rewrite app_nil_r.
Qed.

Lemma ws_then_no_nl x :
  forall c, isspace c = true -> space_before_nl (c :: x) = false ->
            last_nl_of_run x = None.
Proof.
  induction x as [|d x IH]; intros c Hc H; [reflexivity|].
  change (space_before_nl (c :: d :: x))
    with ((isspace c && (d =? NL)%N) || space_before_nl (d :: x)) in H.
  rewrite Hc in H. apply orb_false_iff in H as [Hd H]. cbn [andb] in Hd.
  cbn [last_nl_of_run after_nl]. rewrite Hd.
  destruct (isspace d) eqn:Ed; [|reflexivity].
  now rewrite (IH d Ed H).
Qed.

Lemma last_nl_inside x y :
  existsb (fun d => negb (isspace d)) x = true ->
  last_nl_of_run x = None ->
  last_nl_of_run (x ++ y) = None.
Proof.
  induction x as [|d x IH]; [discriminate|].
  cbn [existsb app last_nl_of_run after_nl]. intros Hx H.
  destruct (isspace d) eqn:Ed; [|reflexivity].
  cbn [negb orb] in Hx.
  destruct (last_nl_of_run x); [discriminate|].
  rewrite (IH Hx eq_refl). destruct (d =? NL)%N; [discriminate|reflexivity].
Qed.

Lemma ends_clean_cons c x : x <> [] -> ends_clean (c :: x) = ends_clean x.
Proof.
  unfold ends_clean. intros Hx. cbn [rev].
  destruct (rev x) as [|d r] eqn:E; [|reflexivity].
  apply (f_equal (@rev char)) in E. rewrite rev_involutive in E. now destruct Hx.
Qed.

Lemma ends_clean_exists x :
  x <> [] -> ends_clean x = true -> existsb (fun d => negb (isspace d)) x = true.
Proof.
  unfold ends_clean. intros Hx H.
  destruct (rev x) as [|d r] eqn:E.
  - apply (f_equal (@rev char)) in E. rewrite rev_involutive in E. now destruct Hx.
  - apply existsb_exists. exists d. split; [|exact H].
    apply in_rev. rewrite E. now left.
Qed.

(** A text that ends in a visible character and has no whitespace
    before a newline goes through unchanged, whatever follows it. *)
Lemma sub_space_nl_core core :
  forall trail,
    space_before_nl core = false ->
    ends_clean core = true ->
    Re.sub false re_space_nl [NL] (core ++ trail)
    = core ++ Re.sub false re_space_nl [NL] trail.
Proof.
  induction core as [|c core IH]; intros trail Hs He; [reflexivity|].
  assert (Hs' : space_before_nl core = false).
  { cbn [space_before_nl] in Hs. now apply orb_false_iff in Hs as [_ ?]. }
  assert (Hrest : Re.sub false re_space_nl [NL] (core ++ trail)
                  = core ++ Re.sub false re_space_nl [NL] trail).
  { destruct core as [|d core']; [reflexivity|].
    apply IH; auto. rewrite <- He. symmetry. now apply ends_clean_cons. }
  cbn [app]. rewrite sub_space_nl_cons.
  destruct (isspace c) eqn:Ec; [|now rewrite Hrest].
  destruct core as [|d core'].
  - unfold ends_clean in He. cbn in He. now rewrite Ec in He.
  - rewrite last_nl_inside.
    + now rewrite Hrest.
    + apply ends_clean_exists; [discriminate|].
      rewrite <- He. symmetry. now apply ends_clean_cons.
    + now apply (ws_then_no_nl _ c).
Qed.

Lemma lstrip_split_ws s : exists w, s = w ++ lstrip s /\ forallb isspace w = true.
Proof.
  induction s as [|c s (w & IH & Hw)]; [now exists []|].
  simpl. destruct (isspace c) eqn:Ec.
  - exists (c :: w). simpl. rewrite Ec, Hw. split; [now f_equal|reflexivity].
  - now exists [].
Qed.

Lemma forallb_rev_ws (w : str) : forallb isspace (rev w) = forallb isspace w.
Proof.
  induction w as [|c w IH]; [reflexivity|].
  cbn [rev forallb]. rewrite forallb_app_ws, IH. cbn. rewrite andb_true_r.
  apply andb_comm.
Qed.

Lemma lstrip_ws w x : forallb isspace w = true -> lstrip (w ++ x) = lstrip x.
Proof.
  induction w as [|c w IH]; [reflexivity|].
  simpl. intros H. apply andb_true_iff in H as [-> H]. now apply IH.
Qed.

(** The text between the whitespace at both ends. *)
Lemma strip_parts s :
  exists lead trail,
    s = lead ++ strip s ++ trail
    /\ forallb isspace lead = true /\ forallb isspace trail = true
    /\ starts_clean (strip s) = true /\ ends_clean (strip s) = true.
Proof.
  destruct (lstrip_split_ws s) as (lead & H1 & Hlead).
  destruct (lstrip_split_ws (rev (lstrip s))) as (w & H2 & Hw).
  exists lead, (rev w). repeat split; auto.
  - rewrite H1 at 1. f_equal. unfold strip, rstrip.
    rewrite <- rev_app_distr, <- H2. now rewrite rev_involutive.
  - now rewrite forallb_rev_ws.
  - apply rstrip_starts_clean, lstrip_clean.
  - unfold ends_clean, strip, rstrip. rewrite rev_involutive. apply lstrip_clean.
Qed.

Lemma strip_sandwich lead core trail :
  forallb isspace lead = true -> forallb isspace trail = true ->
  starts_clean core = true -> ends_clean core = true ->
  strip (lead ++ core ++ trail) = core.
Proof.
  intros Hl Ht Hs He. unfold strip. rewrite (lstrip_ws lead _ Hl).
  destruct core as [|c core].
  - cbn [app]. rewrite <- (app_nil_r trail), (lstrip_ws trail [] Ht). reflexivity.
  - rewrite (lstrip_id ((c :: core) ++ trail)) by exact Hs.
    unfold rstrip. rewrite rev_app_distr, lstrip_ws by now rewrite forallb_rev_ws.
    rewrite (lstrip_id (rev (c :: core))) by exact He.
    apply rev_involutive.
Qed.

(** [\s+\n] changes the trimmed text only where the trimmed text has
    whitespace before a newline. *)
Lemma strip_sub_space_nl s :
  space_before_nl (strip s) = false ->
  strip (Re.sub false re_space_nl [NL] s) = strip s.
Proof.
  intros H.
  destruct (strip_parts s) as (lead & trail & Hs & Hlead & Htrail & Hstart & Hend).
  rewrite Hs at 1.
  destruct (strip s) as [|c core] eqn:E.
  - cbn [app].
    replace (Re.sub false re_space_nl [NL] (lead ++ trail))
      with (Re.sub false re_space_nl [NL] (lead ++ trail) ++ [] ++ [])
      by (cbn [app]; apply app_nil_r).
    apply strip_sandwich; auto.
    apply sub_space_nl_ws. now rewrite forallb_app_ws, Hlead, Htrail.
  - destruct (sub_space_nl_lead (length lead) lead ((c :: core) ++ trail))
      as (lead' & Hlead' & ->); auto.
    rewrite sub_space_nl_core by assumption.
    apply strip_sandwich; auto. now apply sub_space_nl_ws.
Qed.

(** *** What the three shapes of text mean *)

Lemma strip_prefix_spec p :
  forall s r, strip_prefix p s = Some r <-> s = p ++ r.
Proof.
  induction p as [|a p IH]; intros s r; simpl.
  - split; [now intros [= ->]|now intros ->].
  - destruct s as [|c s]; [split; discriminate|].
    destruct (N.eqb_spec a c) as [->|Hne].
    + rewrite IH. split; [now intros ->|now intros [= ->]].
    + split; [discriminate|]. intros [= ? _]. congruence.
Qed.

(** [contains old s]: [old] occurs in [s]. *)
Lemma contains_spec old s :
  contains old s = true <-> exists pre post, s = pre ++ old ++ post.
Proof.
  induction s as [|c s IH]; simpl.
  - destruct (strip_prefix old []) as [r|] eqn:E.
    + apply strip_prefix_spec in E. split; [|reflexivity].
      intros _. exists [], r. exact E.
    + split; [discriminate|]. intros (pre & post & H).
      assert (strip_prefix old [] = Some post) as E'.
      { apply strip_prefix_spec. destruct pre; [exact H|discriminate]. }
      congruence.
  - destruct (strip_prefix old (c :: s)) as [r|] eqn:E.
    + apply strip_prefix_spec in E. split; [|reflexivity].
      intros _. exists [], r. exact E.
    + rewrite IH. split.
      * intros (pre & post & ->). now exists (c :: pre), post.
      * intros (pre & post & H). destruct pre as [|d pre].
        -- assert (strip_prefix old (c :: s) = Some post) as E'
              by now apply strip_prefix_spec.
           congruence.
        -- injection H as _ ->. now exists pre, post.
Qed.

Lemma first_gt l :
  existsb (N.eqb GT) l = true ->
  exists body post, l = body ++ GT :: post /\ ~ In GT body.
Proof.
  induction l as [|c l IH]; [discriminate|].
  cbn [existsb]. destruct (N.eqb_spec GT c) as [<-|Hne].
  - intros _. exists [], l. split; [reflexivity|intros []].
  - cbn [orb]. intros H. destruct (IH H) as (body & post & -> & Hb).
    exists (c :: body), post. split; [reflexivity|].
    intros [E|E]; [congruence|contradiction].
Qed.

(** [has_markup s]: somewhere in [s] stands a [<], then one character
    or more, none of them [>], then a [>]. *)
Lemma has_markup_spec s :
  has_markup s = true
  <-> exists pre body post,
      s = pre ++ LT :: body ++ GT :: post /\ body <> [] /\ ~ In GT body.
Proof.
  split.
  - induction s as [|c s IH]; [discriminate|].
    cbn [has_markup]. intros H. apply orb_true_iff in H as [H|H].
    + apply andb_true_iff in H as [Hc Ho]. apply N.eqb_eq in Hc. subst c.
      destruct s as [|c2 s]; [discriminate|]. cbn [opens] in Ho.
      apply andb_true_iff in Ho as [Hc2 Hgt].
      destruct (first_gt _ Hgt) as (body & post & -> & Hb).
      exists [], (c2 :: body), post. repeat split; [discriminate|].
      intros [E|E]; [|contradiction].
      subst c2. now rewrite N.eqb_refl in Hc2.
    + destruct (IH H) as (pre & body & post & -> & Hne & Hb).
      now exists (c :: pre), body, post.
  - intros (pre & body & post & -> & Hne & Hb).
    apply has_markup_app. destruct body as [|c2 body]; [congruence|].
    apply markup_intro; auto.
    + intros ->. apply Hb. now left.
    + rewrite existsb_app. cbn [existsb]. rewrite N.eqb_refl. cbn [orb].
      apply orb_true_r.
Qed.

(** [space_before_nl s]: somewhere in [s] a whitespace character is
    followed at once by a newline. *)
Lemma space_before_nl_spec s :
  space_before_nl s = true
  <-> exists pre c post, s = pre ++ c :: NL :: post /\ isspace c = true.
Proof.
  split.
  - induction s as [|c s IH]; [discriminate|].
    cbn [space_before_nl]. intros H. apply orb_true_iff in H as [H|H].
    + apply andb_true_iff in H as [Hc Hn].
      destruct s as [|d s]; [discriminate|]. apply N.eqb_eq in Hn. subst d.
      now exists [], c, s.
    + destruct (IH H) as (pre & d & post & -> & Hd).
      now exists (c :: pre), d, post.
  - intros (pre & c & post & -> & Hc).
    apply space_before_nl_app_r. simpl. now rewrite Hc.
Qed.

(** ** Text normalizer *)

Lemma sub_br_plain s : has_markup s = false -> Re.sub true re_br [NL] s = s.
Proof.
  intros H. apply ReFacts.sub_id. intros pre t ->.
  destruct (Re.match_here true re_br t) eqn:E; [|reflexivity].
  apply match_br_markup, (has_markup_app pre) in E. congruence.
Qed.

Lemma sub_tag_plain s : has_markup s = false -> Re.sub false re_tag [] s = s.
Proof.
  intros H. apply ReFacts.sub_id. intros pre t ->.
  destruct (Re.match_here false re_tag t) eqn:E; [|reflexivity].
  apply match_tag_markup, (has_markup_app pre) in E. congruence.
Qed.

Lemma sub_nl3_plain s :
  space_before_nl s = false -> Re.sub false re_nl3 [NL; NL] s = s.
Proof.
  intros H. apply ReFacts.sub_id. intros pre t ->.
  destruct (Re.match_here false re_nl3 t) eqn:E; [|reflexivity].
  apply match_nl3_shape, (space_before_nl_app_r pre) in E. congruence.
Qed.

Lemma decode_entities_plain s : has_entity s = false -> decode_entities s = s.
Proof.
  unfold has_entity, entities. cbn [existsb]. intros H.
  repeat (apply orb_false_iff in H; destruct H as [? H]).
  unfold decode_entities.
  rewrite (replace_id (lit "&amp;")), (replace_id (lit "&lt;")),
    (replace_id (lit "&gt;")), (replace_id (lit "&quot;")),
    (replace_id (lit "&#39;")) by (discriminate || assumption).
  reflexivity.
Qed.

(** After line 56 no newline has whitespace before it, a newline
    included: line 57 finds no run of three newlines and changes
    nothing. *)
Lemma nl3_after_space_nl s :
  Re.sub false re_nl3 [NL; NL] (Re.sub false re_space_nl [NL] s)
  = Re.sub false re_space_nl [NL] s.
Proof. apply sub_nl3_plain. now apply sub_space_nl_clean. Qed.

(** Without markup and entities only the whitespace steps are left. *)
Lemma clean_description_whitespace s :
  has_markup s = false ->
  has_entity s = false ->
  clean_description s = strip (Re.sub false re_space_nl [NL] s).
Proof.
  intros Hm He. destruct s as [|c s]; [reflexivity|].
  unfold clean_description.
  rewrite sub_br_plain, sub_tag_plain, decode_entities_plain by assumption.
  now rewrite nl3_after_space_nl.
Qed.

(** Whatever the input, the result has no whitespace before a newline
    and is its own [strip]. *)
Lemma clean_description_space s : space_before_nl (clean_description s) = false.
Proof.
  destruct s as [|c s]; [reflexivity|].
  unfold clean_description.
  apply strip_space_before_nl.
  rewrite nl3_after_space_nl. now apply sub_space_nl_clean.
Qed.

Lemma clean_description_stripped s : strip (clean_description s) = clean_description s.
Proof.
  destruct s as [|c s]; [reflexivity|].
  unfold clean_description. apply strip_strip.
Qed.

(** The example of the specification:
    [Line1<br/>Line2<b>bold</b>&amp;more] becomes
    [Line1], a newline, [Line2bold&more]. *)
Example clean_description_example :
  clean_description (lit "Line1<br/>Line2<b>bold</b>&amp;more")
  = lit "Line1" ++ [NL] ++ lit "Line2bold&more".
Proof. vm_compute. reflexivity. Qed.

(** C2.  On the input [&amp;lt;] the normalizer returns the character
    [<]: the entity that decoding [&amp;] produces is decoded once
    more by the next replacement, so the output does not contain the
    text [&lt;]. *)
Theorem clean_description_amp_lt :
  clean_description amp_lt = lit "<"
  /\ contains (lit "&lt;") (clean_description amp_lt) = false.
Proof. split; vm_compute; reflexivity. Qed.

(** C3 does not hold as stated: normalizing [&amp;amp;] gives
    [&amp;], and normalizing that gives [&]. *)
Lemma clean_description_not_idempotent :
  clean_description amp_amp = lit "&amp;"
  /\ clean_description (clean_description amp_amp) = lit "&"
  /\ ~ (forall s, clean_description (clean_description s) = clean_description s).
Proof.
  split; [vm_compute; reflexivity|].
  split; [vm_compute; reflexivity|].
  intros H. specialize (H amp_amp). vm_compute in H. discriminate.
Qed.

(** C3 (amended).  Normalizing twice is the same as normalizing once
    for every input whose normalized text contains no angle-bracket
    markup and none of the five entities. *)
Theorem clean_description_idempotent s :
  has_markup (clean_description s) = false ->
  has_entity (clean_description s) = false ->
  clean_description (clean_description s) = clean_description s.
Proof.
  intros Hm He.
  rewrite clean_description_whitespace by assumption.
  rewrite strip_sub_space_nl; rewrite clean_description_stripped.
  - reflexivity.
  - apply clean_description_space.
Qed.

Lemma clean_description_idempotent_witness :
  clean_description (clean_description marked_text) = clean_description marked_text.
Proof. apply clean_description_idempotent; vm_compute; reflexivity. Defined.

(** C4 does not hold as stated: the input [a \nb] has neither
    markup nor entity, and the space before its newline is removed
    although it is interior. *)
Lemma clean_description_alters_interior_space :
  has_markup spaced_lines = false
  /\ has_entity spaced_lines = false
  /\ clean_description spaced_lines = lit "a" ++ [NL] ++ lit "b"
  /\ strip spaced_lines = spaced_lines
  /\ ~ (forall s,
          has_markup s = false -> has_entity s = false ->
          clean_description s = strip s).
Proof.
  split; [vm_compute; reflexivity|].
  split; [vm_compute; reflexivity|].
  split; [vm_compute; reflexivity|].
  split; [vm_compute; reflexivity|].
  intros H. specialize (H spaced_lines eq_refl eq_refl).
  vm_compute in H. discriminate.
Qed.

(** C4 (amended).  For every input with no angle-bracket markup and
    none of the five entities, in which, once trimmed, no whitespace
    character stands right before a newline, the output is the input
    with only leading and trailing whitespace removed. *)
Theorem clean_description_plain_text s :
  has_markup s = false ->
  has_entity s = false ->
  space_before_nl (strip s) = false ->
  clean_description s = strip s.
Proof.
  intros Hm He Hs.
  rewrite clean_description_whitespace by assumption.
  now apply strip_sub_space_nl.
Qed.

Lemma clean_description_plain_text_witness :
  clean_description plain_text = strip plain_text.
Proof. apply clean_description_plain_text; vm_compute; reflexivity. Defined.

(** ** Record mapper *)

Lemma bind_ok {A B} (x : res A) (f : A -> res B) b :
  bind x f = Ok b -> exists a, x = Ok a /\ f a = Ok b.
Proof. destruct x as [a|e]; simpl; [eauto|discriminate]. Qed.

Ltac bind_inv H :=
  let a := fresh "v" in
  let E := fresh "E" in
  apply bind_ok in H; destruct H as (a & E & H).

Lemma py_get_obj m key d v : py_get m key d = Ok v -> is_obj m = true.
Proof. destruct m; simpl; congruence. Qed.

Lemma py_get_field m key : is_obj m = true -> py_get m key JNull = Ok (field key m).
Proof. destruct m; simpl; congruence. Qed.

(** The identifier of a row is the identifier of its item. *)
Lemma map_item_id m r : map_item m = Ok r -> id r = item_id m.
Proof.
  unfold map_item. intros H.
  assert (Hobj : is_obj m = true).
  { destruct (py_get m (lit "studios") JNull) eqn:E; [|discriminate].
    eapply py_get_obj; eauto. }
  repeat bind_inv H.
  inversion H; subst; clear H. cbn [id].
  match goal with
  | E : py_get m (lit "id") JNull = Ok ?x |- ?x = _ =>
      rewrite (py_get_field m (lit "id") Hobj) in E; now inversion E
  end.
Qed.

Lemma names_of_nodes l :
  forallb (optional is_obj) l = true -> exists names, names_of l = Ok names.
Proof.
  induction l as [|s l IH]; [now exists []|].
  cbn [forallb]. intros H. apply andb_true_iff in H as [Hs Hl].
  destruct (IH Hl) as [names Hn]. cbn [names_of].
  destruct s as [| | | | |kv]; try discriminate.
  - simpl. eauto.
  - destruct kv as [|p kv]; [simpl; eauto|].
    cbn [truthy py_get bind].
    destruct (truthy _); cbn [bind]; rewrite Hn; simpl; eauto.
Qed.

Lemma iter_nodes v :
  optional is_nodes v = true ->
  exists l, py_iter (py_or v (JList [])) = Ok l /\ forallb (optional is_obj) l = true.
Proof.
  destruct v as [| | | |l|]; try discriminate; intros H.
  - now exists [].
  - exists l. split; [|exact H]. now destruct l.
Qed.

Lemma studios_nodes_ok s :
  optional (fun s => is_obj s && optional is_nodes (field (lit "nodes") s)) s = true ->
  exists nodes, py_get (py_or s (JObj [])) (lit "nodes") JNull = Ok nodes
                /\ optional is_nodes nodes = true.
Proof.
  destruct s as [| | | | |kv]; try discriminate; intros H.
  - now exists JNull.
  - exists (field (lit "nodes") (JObj kv)). split; [now destruct kv|exact H].
Qed.

Lemma title_ok t key :
  optional is_obj t = true ->
  exists v, py_get (py_or t (JObj [])) key JNull = Ok v.
Proof.
  destruct t as [| | | | |kv]; try discriminate; intros _.
  - now exists JNull.
  - destruct kv; simpl; eauto.
Qed.

Lemma description_ok d :
  optional is_string d = true ->
  exists text, call_clean_description (py_or d (JStr [])) = Ok text.
Proof.
  destruct d as [| | |s| |]; try discriminate; intros _.
  - now exists [].
  - destruct s; [now exists []|]. unfold py_or, call_clean_description. simpl. eauto.
Qed.

(** An item of the expected shape is mapped without exception. *)
Lemma raw_item_maps m : is_raw_item m = true -> exists r, map_item m = Ok r.
Proof.
  unfold is_raw_item. intros H.
  repeat (apply andb_true_iff in H; destruct H as [H ?]).
  unfold map_item. rewrite !(py_get_field m _ H). cbn [bind].
  destruct (studios_nodes_ok _ H2) as (nodes & -> & Hnodes). cbn [bind].
  destruct (iter_nodes _ Hnodes) as (l1 & -> & Hl1). cbn [bind].
  destruct (names_of_nodes _ Hl1) as (n1 & ->). cbn [bind].
  destruct (iter_nodes _ H3) as (l2 & -> & Hl2). cbn [bind].
  destruct (names_of_nodes _ Hl2) as (n2 & ->). cbn [bind].
  destruct (title_ok _ (lit "romaji") H1) as (t1 & ->). cbn [bind].
  destruct (title_ok _ (lit "english") H1) as (t2 & ->). cbn [bind].
  destruct (description_ok _ H0) as (text & ->). cbn [bind].
  eauto.
Qed.

(** The rows of a list of items: one per item that carries an
    identifier, in the order of the items. *)
Lemma map_items_spec media :
  Forall (fun m => exists r, map_item m = Ok r) media ->
  exists rows,
    map_items media = Ok rows
    /\ Forall2 (fun m r => map_item m = Ok r) (filter has_identifier media) rows.
Proof.
  induction 1 as [|m media [r Hr] _ (rows & Hrows & IH)].
  - exists []. split; [reflexivity|constructor].
  - cbn [map_items filter]. rewrite Hr, Hrows. cbn [bind].
    unfold has_identifier at 1. rewrite <- (map_item_id _ _ Hr).
    destruct (is_not_None (id r)); eexists; split; eauto.
Qed.

Lemma map_items_length media rows :
  map_items media = Ok rows ->
  List.length rows = List.length (filter has_identifier media).
Proof.
  revert rows. induction media as [|m media IH]; intros rows H; simpl in H.
  - now inversion H.
  - bind_inv H. bind_inv H. inversion H; subst; clear H.
    cbn [filter]. unfold has_identifier at 1. rewrite <- (map_item_id _ _ E).
    specialize (IH _ E0).
    destruct (is_not_None (id v)); simpl; now rewrite IH.
Qed.

Lemma map_items_strings {A} (l : list A) (f : A -> json) rows :
  (forall k, is_obj (f k) = false) ->
  map_items (List.map f l) = Ok rows -> l = [] /\ rows = [].
Proof.
  intros Hf H. destruct l as [|k l]; simpl in H; [now inversion H|].
  bind_inv H.
  assert (Hobj : is_obj (f k) = true)
    by (unfold map_item in E; bind_inv E; eapply py_get_obj; eauto).
  rewrite Hf in Hobj. discriminate.
Qed.

(** A page that is handled yields as many rows as it has items with
    an identifier. *)
Lemma page_rows_length payload rows :
  page_rows payload = Ok rows -> List.length rows = ids_on_page payload.
Proof.
  unfold page_rows, ids_on_page, media_of. intros H.
  bind_inv H. bind_inv H.
  destruct payload as [| | | | |kv]; try discriminate.
  cbn [py_get] in E. inversion E; subst; clear E. cbn [field].
  destruct (lookup (lit "media") kv) as [media|].
  - destruct media as [| | |s|l|kv']; try discriminate;
      cbn [py_iter] in E0; inversion E0; subst; clear E0.
    + apply map_items_strings in H as [_ ->]; auto.
    + now apply map_items_length.
    + apply map_items_strings in H as [_ ->]; auto.
  - cbn [py_iter] in E0. inversion E0; subst. simpl in H. now inversion H.
Qed.

(** ** Store *)

Lemma do_update_same x r : col_id x = col_id r -> do_update x r = r.
Proof. destruct r; unfold do_update; simpl; intros ->; reflexivity. Qed.

Lemma upsert_map t r :
  List.map (fun x => if (col_id x =? col_id r)%Z then do_update x r else x) t
  = List.map (fun x => if (col_id x =? col_id r)%Z then r else x) t.
Proof.
  apply map_ext. intros x. destruct (Z.eqb_spec (col_id x) (col_id r)); auto.
  now apply do_update_same.
Qed.

Lemma has_id_in i t : has_id i t = true <-> In i (List.map col_id t).
Proof.
  unfold has_id. rewrite existsb_exists, in_map_iff. split.
  - intros (x & Hx & E). apply Z.eqb_eq in E. eauto.
  - intros (x & E & Hx). exists x. split; auto. now apply Z.eqb_eq.
Qed.

Lemma select_none i t : has_id i t = false -> select i t = [].
Proof.
  unfold has_id, select. induction t as [|x t IH]; simpl; auto.
  destruct (col_id x =? i)%Z; simpl; [discriminate|auto].
Qed.

Lemma insert_row_perm r t : Permutation (r :: t) (insert_row r t).
Proof.
  induction t as [|x t IH]; cbn [insert_row]; [reflexivity|].
  destruct (col_id r <? col_id x)%Z; [reflexivity|].
  rewrite perm_swap. now constructor.
Qed.

Lemma insert_row_in r t x : In x (insert_row r t) <-> x = r \/ In x t.
Proof.
  split.
  - intros H. apply (Permutation_in _ (Permutation_sym (insert_row_perm r t))) in H.
    destruct H; auto.
  - intros H. apply (Permutation_in _ (insert_row_perm r t)).
    destruct H; [left|right]; auto.
Qed.

Lemma select_insert_row r t j :
  j <> col_id r -> select j (insert_row r t) = select j t.
Proof.
  intros Hj. unfold select. induction t as [|x t IH]; cbn [insert_row filter].
  - destruct (Z.eqb_spec (col_id r) j); [congruence|reflexivity].
  - destruct (col_id r <? col_id x)%Z; cbn [filter].
    + destruct (Z.eqb_spec (col_id r) j); [congruence|reflexivity].
    + now rewrite IH.
Qed.

(** An upsert of a known identifier leaves every identifier where it
    is; the identifier of a new row joins the others. *)
Lemma upsert_ids_known t r :
  has_id (col_id r) t = true -> List.map col_id (upsert t r) = List.map col_id t.
Proof.
  intros H. unfold upsert. rewrite H, upsert_map, map_map.
  apply map_ext. intros x.
  destruct (Z.eqb_spec (col_id x) (col_id r)); auto.
Qed.

Lemma upsert_ids_new t r :
  has_id (col_id r) t = false ->
  Permutation (col_id r :: List.map col_id t) (List.map col_id (upsert t r)).
Proof.
  intros H. unfold upsert. rewrite H.
  change (col_id r :: List.map col_id t) with (List.map col_id (r :: t)).
  apply Permutation_map, insert_row_perm.
Qed.

Lemma upsert_ids_in t r i :
  In i (List.map col_id (upsert t r)) <-> i = col_id r \/ In i (List.map col_id t).
Proof.
  destruct (has_id (col_id r) t) eqn:E.
  - rewrite (upsert_ids_known _ _ E). apply has_id_in in E.
    split; [now right|]. intros [->|H]; auto.
  - split.
    + intros H. apply (Permutation_in _ (Permutation_sym (upsert_ids_new _ _ E))) in H.
      destruct H; auto.
    + intros H. apply (Permutation_in _ (upsert_ids_new _ _ E)).
      destruct H; [left|right]; auto.
Qed.

(** The invariant of the primary key is kept by every upsert. *)
Lemma upsert_unique t r : unique_ids t -> unique_ids (upsert t r).
Proof.
  unfold unique_ids. intros H.
  destruct (has_id (col_id r) t) eqn:E.
  - now rewrite (upsert_ids_known _ _ E).
  - apply (Permutation_NoDup (upsert_ids_new _ _ E)).
    constructor; auto. intros Hi. apply has_id_in in Hi. congruence.
Qed.

Lemma select_unique i t x :
  unique_ids t -> In x t -> col_id x = i -> select i t = [x].
Proof.
  unfold unique_ids, select. induction t as [|y t IH]; simpl; [tauto|].
  intros Hnd Hin Hid. inversion Hnd as [|? ? Hy Ht]; subst.
  destruct Hin as [->|Hin].
  - rewrite Z.eqb_refl. f_equal.
    apply (select_none (col_id x) t).
    destruct (has_id (col_id x) t) eqn:E; auto.
    apply has_id_in in E. contradiction.
  - destruct (Z.eqb_spec (col_id y) (col_id x)) as [E|E].
    + exfalso. apply Hy. rewrite E. now apply in_map.
    + now apply IH.
Qed.

(** After an upsert the identifier of the row selects that row, whole. *)
Lemma select_upsert_same t r :
  unique_ids t -> select (col_id r) (upsert t r) = [r].
Proof.
  intros H. apply select_unique; auto.
  - now apply upsert_unique.
  - unfold upsert. destruct (has_id (col_id r) t) eqn:E.
    + rewrite upsert_map. apply has_id_in, in_map_iff in E as (x & Hx & Hin).
      apply in_map_iff. exists x. split; auto.
      now rewrite Hx, Z.eqb_refl.
    + apply insert_row_in. now left.
Qed.

(** The rows of the other identifiers are left alone. *)
Lemma select_upsert_other t r j :
  j <> col_id r -> select j (upsert t r) = select j t.
Proof.
  intros Hj. unfold upsert, select. destruct (has_id (col_id r) t).
  - rewrite upsert_map. induction t as [|x t IH]; simpl; auto.
    destruct (Z.eqb_spec (col_id x) (col_id r)) as [E|E].
    + destruct (Z.eqb_spec (col_id r) j); [congruence|].
      destruct (Z.eqb_spec (col_id x) j); [congruence|]. exact IH.
    + destruct (col_id x =? j)%Z; [f_equal|]; exact IH.
  - now apply select_insert_row.
Qed.

Lemma fold_upsert_unique batch : forall t, unique_ids t -> unique_ids (fold_left upsert batch t).
Proof.
  induction batch as [|r batch IH]; simpl; auto.
  intros t H. now apply IH, upsert_unique.
Qed.

(** A batch, identifier by identifier: the last row of the batch with
    the identifier if there is one, the row of the table otherwise. *)
Lemma select_fold_upsert batch :
  forall t i,
    unique_ids t ->
    select i (fold_left upsert batch t)
    = match last_with_id i batch with
      | Some x => [x]
      | None => select i t
      end.
Proof.
  induction batch as [|r batch IH]; intros t i H; simpl; auto.
  rewrite IH by now apply upsert_unique.
  destruct (last_with_id i batch); auto.
  destruct (Z.eqb_spec (col_id r) i) as [<-|E].
  - now apply select_upsert_same.
  - apply select_upsert_other. congruence.
Qed.

Lemma upsert_batch_ok adapt conn rows bound :
  adapt_all adapt rows = Ok bound ->
  upsert_batch adapt conn rows = Ok (fold_left upsert bound conn).
Proof. unfold upsert_batch. now intros ->. Qed.

Lemma adapt_one adapt r b : adapt r = Ok b -> adapt_all adapt [r] = Ok [b].
Proof. simpl. now intros ->. Qed.

(** C6.  A batch keeps the identifiers of the table unique, and after
    it each identifier of the batch selects exactly one row, the last
    one the batch carried for it, while the other rows are unchanged.
    In particular the same record upserted twice leaves exactly one
    row, equal to it, and identifier 7 upserted with the fields [A] and
    then with the fields [B] leaves exactly one row, equal to [B]. *)
Theorem upsert_batch_last_write_wins adapt conn rows bound r b rA rB A B :
  unique_ids conn ->
  adapt_all adapt rows = Ok bound ->
  adapt r = Ok b ->
  adapt rA = Ok A -> adapt rB = Ok B -> col_id A = 7%Z -> col_id B = 7%Z ->
  (exists conn',
      upsert_batch adapt conn rows = Ok conn'
      /\ unique_ids conn'
      /\ forall i, select i conn'
                   = match last_with_id i bound with
                     | Some x => [x]
                     | None => select i conn
                     end)
  /\ (exists c1 c2,
         upsert_batch adapt conn [r] = Ok c1
         /\ upsert_batch adapt c1 [r] = Ok c2
         /\ unique_ids c2
         /\ select (col_id b) c2 = [b])
  /\ (exists c1 c2,
         upsert_batch adapt conn [rA] = Ok c1
         /\ upsert_batch adapt c1 [rB] = Ok c2
         /\ unique_ids c2
         /\ select 7%Z c2 = [B]).
Proof.
  intros U Hrows Hr HA HB HidA HidB. repeat split.
  - exists (fold_left upsert bound conn). repeat split.
    + now apply upsert_batch_ok.
    + now apply fold_upsert_unique.
    + intros i. now apply select_fold_upsert.
  - exists (upsert conn b), (upsert (upsert conn b) b).
    rewrite !(upsert_batch_ok adapt _ [r] [b]) by now apply adapt_one.
    repeat split; auto using upsert_unique.
    apply select_upsert_same. auto using upsert_unique.
  - exists (upsert conn A), (upsert (upsert conn A) B).
    rewrite (upsert_batch_ok adapt _ [rA] [A]) by now apply adapt_one.
    rewrite (upsert_batch_ok adapt _ [rB] [B]) by now apply adapt_one.
    repeat split; auto using upsert_unique.
    rewrite <- HidB. apply select_upsert_same. auto using upsert_unique.
Qed.

Lemma upsert_batch_last_write_wins_witness :
  (exists conn',
      upsert_batch adapt_typed [] [row7A; row1; row7B] = Ok conn'
      /\ unique_ids conn'
      /\ forall i, select i conn'
                   = match last_with_id i [stored row7A; stored row1; stored row7B] with
                     | Some x => [x]
                     | None => select i []
                     end)
  /\ (exists c1 c2,
         upsert_batch adapt_typed [] [row5] = Ok c1
         /\ upsert_batch adapt_typed c1 [row5] = Ok c2
         /\ unique_ids c2
         /\ select (col_id (stored row5)) c2 = [stored row5])
  /\ (exists c1 c2,
         upsert_batch adapt_typed [] [row7A] = Ok c1
         /\ upsert_batch adapt_typed c1 [row7B] = Ok c2
         /\ unique_ids c2
         /\ select 7%Z c2 = [stored row7B]).
Proof.
  apply (upsert_batch_last_write_wins adapt_typed []
           [row7A; row1; row7B] [stored row7A; stored row1; stored row7B]
           row5 (stored row5) row7A row7B (stored row7A) (stored row7B));
    try reflexivity.
  constructor.
Defined.

(** ** Pipeline driver *)

Lemma fetches_app l l' : fetches (l ++ l') = (fetches l + fetches l')%nat.
Proof. unfold fetches. now rewrite filter_app, length_app. Qed.

Lemma fetches_of_app p l l' : fetches_of p (l ++ l') = (fetches_of p l + fetches_of p l')%nat.
Proof. unfold fetches_of. now rewrite filter_app, length_app. Qed.

Lemma fetched_app l l' : fetched (l ++ l') = fetched l ++ fetched l'.
Proof. unfold fetched. now rewrite flat_map_app. Qed.

Lemma batches_app l l' : batches (l ++ l') = batches l ++ batches l'.
Proof. unfold batches. now rewrite filter_app. Qed.

Lemma sum_app l l' : sum (l ++ l') = (sum l + sum l')%nat.
Proof. induction l; simpl; lia. Qed.

Section DriverFacts.

Variable fetch : nat -> Z -> Z -> res json.
Variable adapt : row -> res anime.
Variable a : args.

Lemma round_retry st status :
  call_fetch fetch a st = Raise (HTTPError status) ->
  round fetch adapt a st = Running (after_retry a st status).
Proof.
  unfold round. intros ->.
  unfold after_retry, record. cbn [log total_inserted has_next page conn].
  now rewrite <- app_assoc.
Qed.

Lemma round_abort st e :
  call_fetch fetch a st = Raise e ->
  (forall status, e <> HTTPError status) ->
  round fetch adapt a st
  = Aborted e (record st [Fetch (page st) (per_page a) (Raise e)]).
Proof.
  unfold round. intros -> H.
  destruct e; try reflexivity. now destruct (H status_code).
Qed.

Lemma store_rows_ok st rows bound :
  adapt_all adapt rows = Ok bound ->
  store_rows adapt st rows
  = Ok {| total_inserted := total_inserted st + Z.of_nat (List.length rows);
          has_next := has_next st;
          page := page st;
          conn := fold_left upsert bound (conn st);
          log := log st ++ match rows with [] => [] | _ :: _ => [Executemany rows] end |}.
Proof.
  intros H. unfold store_rows. destruct rows as [|r rows].
  - simpl in H. inversion H; subst. simpl.
    rewrite Z.add_0_r, app_nil_r. now destruct st.
  - unfold upsert_batch. now rewrite H.
Qed.

Lemma store_rows_inv st rows st1 :
  store_rows adapt st rows = Ok st1 ->
  exists bound, adapt_all adapt rows = Ok bound.
Proof.
  unfold store_rows. destruct rows as [|r rows]; [now exists []|].
  unfold upsert_batch. intros H.
  destruct (adapt_all adapt (r :: rows)) as [bound|]; [eauto|discriminate].
Qed.

Lemma handle_page_ok st payload rows bound flag :
  handled adapt payload rows bound flag ->
  time_sleep (sleep a) = Ok tt ->
  handle_page adapt a (record st [Fetch (page st) (per_page a) (Ok payload)]) payload
  = Running (after_page a st payload rows bound flag).
Proof.
  intros (Hrows & Hbound & Hflag) Hsleep. unfold handle_page.
  rewrite Hrows, (store_rows_ok _ _ _ Hbound), Hflag.
  rewrite Hsleep.
  unfold after_page, record. cbn [log total_inserted has_next page conn].
  now rewrite <- !app_assoc.
Qed.

Lemma round_page st payload rows bound flag :
  call_fetch fetch a st = Ok payload ->
  handled adapt payload rows bound flag ->
  time_sleep (sleep a) = Ok tt ->
  round fetch adapt a st = Running (after_page a st payload rows bound flag).
Proof.
  unfold round. intros ->. apply handle_page_ok.
Qed.

(** A round that keeps the loop going is one of the two above. *)
Lemma round_running st st' :
  round fetch adapt a st = Running st' ->
  (exists status,
      call_fetch fetch a st = Raise (HTTPError status) /\ st' = after_retry a st status)
  \/ (exists payload rows bound flag,
         call_fetch fetch a st = Ok payload
         /\ handled adapt payload rows bound flag
         /\ time_sleep (sleep a) = Ok tt
         /\ st' = after_page a st payload rows bound flag).
Proof.
  intros H. destruct (call_fetch fetch a st) as [payload|e] eqn:F.
  - right. assert (H' := H). unfold round in H'. fold (call_fetch fetch a st) in H'.
    rewrite F in H'. unfold handle_page in H'.
    destruct (page_rows payload) as [rows|] eqn:Hrows; [|discriminate].
    destruct (store_rows adapt _ rows) as [st1|] eqn:Hst; [|discriminate].
    destruct (store_rows_inv _ _ _ Hst) as [bound Hbound].
    destruct (next_flag payload) as [flag|] eqn:Hflag; [|discriminate].
    destruct (time_sleep (sleep a)) as [[]|] eqn:Hsleep; [|discriminate].
    exists payload, rows, bound, flag. repeat split; auto.
    rewrite (round_page st payload rows bound flag) in H; auto.
    + congruence.
    + repeat split; auto.
  - left. destruct e as [status| | | | | | | | | |];
      try (rewrite (round_abort st _ F) in H; [discriminate|discriminate]).
    exists status. split; auto. rewrite (round_retry st status F) in H. congruence.
Qed.

Lemma loop_done fuel st :
  loop_test a st = false ->
  loop fetch adapt a fuel st
  = Done (record st [Write (Finished (total_inserted st) (db a))]).
Proof. intros H. destruct fuel; simpl; now rewrite H. Qed.

Lemma loop_step fuel st st' :
  loop_test a st = true ->
  round fetch adapt a st = Running st' ->
  loop fetch adapt a (S fuel) st = loop fetch adapt a fuel st'.
Proof. intros H R. simpl. now rewrite H, R. Qed.

Lemma loop_abort fuel st e st' :
  loop_test a st = true ->
  round fetch adapt a st = Aborted e st' ->
  loop fetch adapt a (S fuel) st = Aborted e st'.
Proof. intros H R. simpl. now rewrite H, R. Qed.

Lemma round_not_done st st' : round fetch adapt a st <> Done st'.
Proof.
  unfold round. destruct (call_fetch fetch a st) as [payload|e].
  - unfold handle_page.
    destruct (page_rows payload); [|discriminate].
    destruct (store_rows _ _ _); [|discriminate].
    destruct (next_flag payload); [|discriminate].
    destruct (time_sleep _); discriminate.
  - destruct e; discriminate.
Qed.

(** *** The reported total *)

Lemma counted_retry st status : counted st -> counted (after_retry a st status).
Proof.
  unfold counted, after_retry, record. cbn [log total_inserted].
  rewrite fetched_app. cbn. now rewrite app_nil_r.
Qed.

Lemma fetched_after_page st payload rows bound flag :
  fetched (log (after_page a st payload rows bound flag))
  = fetched (log st) ++ [payload].
Proof.
  unfold after_page. cbn [log]. rewrite fetched_app. f_equal.
  destruct rows; reflexivity.
Qed.

Lemma counted_page st payload rows bound flag :
  handled adapt payload rows bound flag ->
  counted st -> counted (after_page a st payload rows bound flag).
Proof.
  intros (Hrows & _) H. unfold counted. rewrite fetched_after_page.
  rewrite map_app, sum_app. cbn [List.map sum].
  rewrite <- (page_rows_length _ _ Hrows).
  unfold after_page. cbn [total_inserted]. rewrite H. lia.
Qed.

Lemma loop_counted fuel :
  forall st st',
    counted st ->
    loop fetch adapt a fuel st = Done st' ->
    counted st'
    /\ last (log st') Update = Write (Finished (total_inserted st') (db a)).
Proof.
  induction fuel as [|fuel IH]; intros st st' C H.
  - simpl in H. destruct (loop_test a st); [discriminate|].
    inversion H; subst; clear H. split.
    + unfold counted, record in *. cbn [log total_inserted].
      rewrite fetched_app. cbn. now rewrite app_nil_r.
    + unfold record. cbn [log total_inserted]. apply last_last.
  - destruct (loop_test a st) eqn:T.
    + simpl in H. rewrite T in H.
      destruct (round fetch adapt a st) as [s|e s|s] eqn:R; try discriminate.
      * now apply round_not_done in R.
      * apply (IH s st'); auto.
        apply round_running in R
          as [(status & _ & ->)|(payload & rows & bound & flag & _ & Hh & _ & ->)].
        -- now apply counted_retry.
        -- now apply counted_page.
    + rewrite loop_done in H by assumption.
      inversion H; subst; clear H. split.
      * unfold counted, record in *. cbn [log total_inserted].
        rewrite fetched_app. cbn. now rewrite app_nil_r.
      * unfold record. cbn [log total_inserted]. apply last_last.
Qed.

End DriverFacts.

(** ** The mapper within a page *)

Lemma batches_batch (rows : list row) :
  batches match rows with [] => [] | _ :: _ => [Executemany rows] end
  = match rows with [] => [] | _ :: _ => [Executemany rows] end.
Proof. now destruct rows. Qed.

Lemma handle_page_batches adapt a st payload rows :
  page_rows payload = Ok rows ->
  batches (log (final_state (handle_page adapt a st payload)))
  = batches (log st) ++ match rows with [] => [] | _ :: _ => [Executemany rows] end.
Proof.
  intros Hrows. unfold handle_page. rewrite Hrows.
  destruct (adapt_all adapt rows) as [bound|e] eqn:Hbound.
  - rewrite (store_rows_ok adapt st rows bound Hbound).
    destruct (next_flag payload) as [flag|]; cbn [final_state log].
    + destruct (time_sleep (sleep a)); cbn [final_state log];
        rewrite !batches_app, batches_batch;
        change (batches [Update; Sleep (sleep a)]) with (@nil event);
        now rewrite app_nil_r.
    + now rewrite batches_app, batches_batch.
  - unfold store_rows. destruct rows as [|r rows]; [discriminate|].
    unfold upsert_batch. rewrite Hbound. cbn [bind final_state record log].
    now rewrite batches_app.
Qed.

(** C8.  On a page of items of the expected shape, the rows are the
    mapped items that carry an identifier, one for each and in their
    order; an item without identifier contributes no row, and the batch
    handed to the store is that list of rows. *)
Theorem page_rows_drop_items_without_id payload media :
  py_get payload (lit "media") (JList []) = Ok (JList media) ->
  Forall (fun m => is_raw_item m = true) media ->
  exists rows,
    page_rows payload = Ok rows
    /\ Forall2 (fun m r => map_item m = Ok r /\ id r = item_id m)
         (filter has_identifier media) rows
    /\ forall adapt a st,
        batches (log (final_state (handle_page adapt a st payload)))
        = batches (log st) ++ match rows with [] => [] | _ :: _ => [Executemany rows] end.
Proof.
  intros Hmedia Hshape.
  assert (Hmaps : Forall (fun m => exists r, map_item m = Ok r) media).
  { eapply Forall_impl; [|exact Hshape]. intros m. apply raw_item_maps. }
  destruct (map_items_spec media Hmaps) as (rows & Hrows & Hall).
  assert (Hpage : page_rows payload = Ok rows).
  { unfold page_rows. rewrite Hmedia. exact Hrows. }
  exists rows. repeat split; auto.
  - eapply Forall2_impl; [|exact Hall].
    intros m r H. split; auto. now apply map_item_id.
  - intros adapt a st. now apply handle_page_batches.
Qed.

Lemma page_rows_drop_items_without_id_witness :
  exists rows,
    page_rows mixed_page = Ok rows
    /\ Forall2 (fun m r => map_item m = Ok r /\ id r = item_id m)
         [titled (JNum 1) "One"; item5] rows
    /\ forall adapt a st,
        batches (log (final_state (handle_page adapt a st mixed_page)))
        = batches (log st) ++ match rows with [] => [] | _ :: _ => [Executemany rows] end.
Proof.
  apply (page_rows_drop_items_without_id mixed_page
           [titled (JNum 1) "One"; titled JNull "Nameless"; item5]).
  - reflexivity.
  - repeat constructor.
Defined.

(** C9.  The item
    {id:5, title:{romaji:"X"}, tags:[{name:"A"},null,{name:null}], studios:null}
    is mapped to a row whose tags are the names ["A"], whose studios
    are the empty list and whose English title is null. *)
Theorem map_item_example :
  names_of [JObj [(lit "name", JStr (lit "A"))]; JNull; JObj [(lit "name", JNull)]]
  = Ok [JStr (lit "A")]
  /\ map_item item5 = Ok row5
  /\ tags row5 = dumps (JList [JStr (lit "A")])
  /\ studios row5 = dumps (JList [])
  /\ title_english row5 = JNull
  /\ col_title_english (stored row5) = SqlNull.
Proof. repeat split; vm_compute; reflexivity. Qed.

(** ** Runs of the driver *)

Section Runs.

Variable fetch : nat -> Z -> Z -> res json.
Variable adapt : row -> res anime.
Variable a : args.

Lemma fetches_after_page st payload rows bound flag :
  fetches (log (after_page a st payload rows bound flag)) = S (fetches (log st)).
Proof.
  unfold after_page. cbn [log]. rewrite !fetches_app.
  destruct rows; cbn; lia.
Qed.

Lemma fetches_of_after_page p st payload rows bound flag :
  fetches_of p (log (after_page a st payload rows bound flag))
  = (fetches_of p (log st) + if (page st =? p)%Z then 1 else 0)%nat.
Proof.
  unfold after_page. cbn [log]. rewrite !fetches_of_app.
  destruct rows; cbn; destruct (page st =? p)%Z; cbn; lia.
Qed.

Lemma fetches_after_retry st status :
  fetches (log (after_retry a st status)) = S (fetches (log st)).
Proof.
  unfold after_retry, record. cbn [log]. rewrite fetches_app. cbn. lia.
Qed.

Lemma fetches_of_after_retry p st status :
  fetches_of p (log (after_retry a st status))
  = (fetches_of p (log st) + if (page st =? p)%Z then 1 else 0)%nat.
Proof.
  unfold after_retry, record. cbn [log]. rewrite fetches_of_app.
  cbn. destruct (page st =? p)%Z; cbn; lia.
Qed.

Lemma handle_page_log st payload :
  exists es, log (final_state (handle_page adapt a st payload)) = log st ++ es.
Proof.
  unfold handle_page.
  destruct (page_rows payload) as [rows|]; [|exists []; cbn; now rewrite app_nil_r].
  destruct (store_rows adapt st rows) as [st1|] eqn:S1;
    [|eexists; cbn; reflexivity].
  assert (exists es, log st1 = log st ++ es) as [es1 H1].
  { destruct (store_rows_inv adapt _ _ _ S1) as [bound Hbound].
    rewrite (store_rows_ok adapt st rows bound Hbound) in S1.
    inversion S1; subst. cbn. eauto. }
  destruct (next_flag payload) as [flag|]; [|exists es1; exact H1].
  destruct (time_sleep (sleep a)); cbn [final_state log];
    rewrite H1, <- app_assoc; eauto.
Qed.

Lemma round_log st :
  exists es,
    log (final_state (round fetch adapt a st))
    = log st ++ Fetch (page st) (per_page a) (call_fetch fetch a st) :: es.
Proof.
  unfold round. destruct (call_fetch fetch a st) as [payload|e] eqn:F.
  - destruct (handle_page_log
                (record st [Fetch (page st) (per_page a) (Ok payload)]) payload)
      as [es H].
    exists es. rewrite H. cbn [record log]. now rewrite <- app_assoc.
  - destruct e; try (exists []; reflexivity).
    eexists. cbn [final_state record log]. rewrite <- app_assoc. reflexivity.
Qed.

Lemma loop_log fuel :
  forall st, exists es, log (final_state (loop fetch adapt a fuel st)) = log st ++ es.
Proof.
  assert (stay : forall st : state, exists es, log st = log st ++ es)
    by (intros st; exists []; now rewrite app_nil_r).
  induction fuel as [|fuel IH]; intros st; cbn [loop];
    destruct (loop_test a st); try (eexists; cbn; reflexivity); try apply stay.
  destruct (round_log st) as [es H].
  destruct (round fetch adapt a st) as [s|e s|s] eqn:R; cbn [final_state] in *.
  - rewrite H. eexists. reflexivity.
  - rewrite H. eexists. reflexivity.
  - destruct (IH s) as [es' H']. rewrite H', H, <- app_assoc.
    eexists. reflexivity.
Qed.

(** While the test of the loop holds, the next thing a run does is
    to fetch the current page. *)
Lemma loop_next_fetch fuel st :
  loop_test a st = true ->
  exists es,
    log (final_state (loop fetch adapt a (S fuel) st))
    = log st ++ Fetch (page st) (per_page a) (call_fetch fetch a st) :: es.
Proof.
  intros T. cbn [loop]. rewrite T.
  destruct (round_log st) as [es H].
  destruct (round fetch adapt a st) as [s|e s|s] eqn:R; cbn [final_state] in *.
  - rewrite H. eexists. reflexivity.
  - rewrite H. eexists. reflexivity.
  - destruct (loop_log fuel s) as [es' H']. rewrite H', H, <- app_assoc.
    eexists. reflexivity.
Qed.

(** A run over pages that all announce a successor stops on the
    budget: as many fetches as pages are left. *)
Lemma run_to_budget :
  time_sleep (sleep a) = Ok tt ->
  (forall k p, exists payload rows bound flag,
        fetch k p (per_page a) = Ok payload
        /\ handled adapt payload rows bound flag
        /\ truthy flag = true) ->
  forall m fuel st,
    truthy (has_next st) = true ->
    (page st + Z.of_nat m = pages a + 1)%Z ->
    (m <= fuel)%nat ->
    exists st',
      loop fetch adapt a fuel st = Done st'
      /\ fetches (log st') = (fetches (log st) + m)%nat.
Proof.
  intros Hsleep Hall. induction m as [|m IH]; intros fuel st Hnext Hpage Hfuel.
  - rewrite loop_done.
    + eexists. split; [reflexivity|].
      unfold record. cbn [log]. rewrite fetches_app. cbn. lia.
    + unfold loop_test. rewrite Hnext. apply Z.leb_gt. lia.
  - destruct fuel as [|fuel]; [lia|].
    destruct (Hall (fetches (log st)) (page st))
      as (payload & rows & bound & flag & Hf & Hh & Hflag).
    assert (T : loop_test a st = true).
    { unfold loop_test. rewrite Hnext. apply Z.leb_le. lia. }
    rewrite (loop_step fetch adapt a fuel st _ T
               (round_page fetch adapt a st payload rows bound flag Hf Hh Hsleep)).
    destruct (IH fuel (after_page a st payload rows bound flag)) as (st' & Hrun & Hn).
    + exact Hflag.
    + cbn [after_page page]. lia.
    + lia.
    + exists st'. split; auto. rewrite Hn, fetches_after_page. lia.
Qed.

End Runs.

(** A length within reach of the pause passes the checks of
    [time.sleep]. *)
Lemma pause_returns_sleep secs : pause_returns secs = true -> time_sleep secs = Ok tt.
Proof.
  destruct secs as [q| |]; try discriminate. cbn [pause_returns time_sleep].
  intros H. apply andb_true_iff in H as [H0 H1]. apply Qle_bool_iff in H0, H1.
  set (x := nanoseconds q) in *.
  assert (A : Qlt_bool x (inject_Z (- 2 ^ 63 - 1024)) = false).
  { apply negb_false_iff, Qle_bool_iff. apply Qle_trans with (inject_Z 0); auto.
    rewrite <- Zle_Qle. apply Z.leb_le. reflexivity. }
  assert (B : Qlt_bool (inject_Z (2 ^ 63 + 1024)) x = false).
  { apply negb_false_iff, Qle_bool_iff. apply Qle_trans with (inject_Z (2 ^ 62)); auto.
    rewrite <- Zle_Qle. apply Z.leb_le. reflexivity. }
  assert (C : Qlt_bool x 0 = false).
  { apply negb_false_iff, Qle_bool_iff. exact H0. }
  assert (D : Qle_bool (inject_Z (2 ^ 63 - 512)) x = false).
  { destruct (Qle_bool (inject_Z (2 ^ 63 - 512)) x) eqn:E; [|reflexivity].
    apply Qle_bool_iff in E. assert (F := Qle_trans _ _ _ E H1).
    rewrite <- Zle_Qle in F. apply Z.leb_le in F. discriminate. }
  now rewrite A, B, C, D.
Qed.

Lemma initial_counted file : counted (initial file).
Proof. reflexivity. Qed.

Lemma last_with_id_in x batch :
  In x batch -> exists y, last_with_id (col_id x) batch = Some y.
Proof.
  induction batch as [|r batch IH]; [intros []|].
  intros [->|H]; cbn [last_with_id].
  - destruct (last_with_id (col_id x) batch); eauto.
    rewrite Z.eqb_refl. eauto.
  - destruct (IH H) as [y ->]. eauto.
Qed.

(** C5.  After a round that handled a page, the loop fetches the next
    page exactly when the continuation flag of the page is true and the
    next page number is within the budget; otherwise the run is done
    with no further fetch.  With a budget of [n] pages that all report
    a next page, a run issues exactly [n] fetches and is done (in
    particular 3 fetches for a budget of 3); when page 1 reports no
    next page, a run issues exactly one fetch and is done, its total
    being the number of rows of that page.  The pause of line 155 is
    one that returns: a length that is not negative and in reach of the
    clock. *)
Theorem loop_advances_on_flag_and_budget fetch adapt a :
  (forall st payload rows bound flag fuel,
      call_fetch fetch a st = Ok payload ->
      handled adapt payload rows bound flag ->
      pause_returns (sleep a) = true ->
      round fetch adapt a st = Running (after_page a st payload rows bound flag)
      /\ (truthy flag = true /\ (page st + 1 <= pages a)%Z ->
          exists es,
            log (final_state
                   (loop fetch adapt a (S fuel) (after_page a st payload rows bound flag)))
            = log (after_page a st payload rows bound flag)
                  ++ Fetch (page st + 1) (per_page a)
                       (fetch (S (fetches (log st))) (page st + 1)%Z (per_page a)) :: es)
      /\ (~ (truthy flag = true /\ (page st + 1 <= pages a)%Z) ->
          exists st',
            loop fetch adapt a fuel (after_page a st payload rows bound flag) = Done st'
            /\ fetches (log st') = S (fetches (log st))))
  /\ (forall n file fuel,
         pages a = Z.of_nat n ->
         pause_returns (sleep a) = true ->
         (forall k p, exists payload rows bound flag,
               fetch k p (per_page a) = Ok payload
               /\ handled adapt payload rows bound flag
               /\ truthy flag = true) ->
         (n <= fuel)%nat ->
         exists st,
           main fetch adapt a fuel file = Done st /\ fetches (log st) = n)
  /\ (forall file payload rows bound flag fuel,
         (1 <= pages a)%Z ->
         pause_returns (sleep a) = true ->
         fetch 0%nat 1%Z (per_page a) = Ok payload ->
         handled adapt payload rows bound flag ->
         truthy flag = false ->
         (1 <= fuel)%nat ->
         exists st,
           main fetch adapt a fuel file = Done st
           /\ fetches (log st) = 1%nat
           /\ total_inserted st = Z.of_nat (List.length rows)
           /\ List.length rows = ids_on_page payload).
Proof.
  split; [|split].
  - intros st payload rows bound flag fuel Hf Hh Hsleep.
    apply pause_returns_sleep in Hsleep.
    split; [now apply round_page|]. split.
    + intros [Hflag Hpage].
      destruct (loop_next_fetch fetch adapt a fuel
                  (after_page a st payload rows bound flag)) as [es H].
      * unfold loop_test. cbn [after_page has_next page]. rewrite Hflag.
        now apply Z.leb_le.
      * exists es. rewrite H. unfold call_fetch. now rewrite fetches_after_page.
    + intros Hno. rewrite loop_done.
      * eexists. split; [reflexivity|].
        unfold record. cbn [log]. rewrite fetches_app, fetches_after_page. cbn. lia.
      * unfold loop_test. cbn [after_page has_next page].
        destruct (truthy flag) eqn:Hflag; [|reflexivity].
        apply Z.leb_gt. destruct (Z.le_gt_cases (page st + 1) (pages a)); [|lia].
        exfalso. apply Hno. now split.
  - intros n file fuel Hn Hsleep Hall Hfuel.
    apply pause_returns_sleep in Hsleep.
    destruct (run_to_budget fetch adapt a Hsleep Hall n fuel (initial file))
      as (st & Hrun & Hcount); auto.
    + cbn [initial page]. lia.
    + exists st. split; [exact Hrun|]. rewrite Hcount. reflexivity.
  - intros file payload rows bound flag fuel Hpages Hsleep Hf Hh Hflag Hfuel.
    apply pause_returns_sleep in Hsleep.
    destruct fuel as [|fuel]; [lia|].
    unfold main.
    rewrite (loop_step fetch adapt a fuel (initial file)
               (after_page a (initial file) payload rows bound flag)).
    + rewrite loop_done.
      * eexists. split; [reflexivity|].
        unfold record. cbn [log total_inserted].
        rewrite fetches_app, fetches_after_page.
        split; [reflexivity|]. split.
        -- cbn [after_page total_inserted initial]. lia.
        -- destruct Hh as [Hrows _]. now apply page_rows_length.
      * unfold loop_test. cbn [after_page has_next]. now rewrite Hflag.
    + unfold loop_test. cbn [initial has_next page truthy]. now apply Z.leb_le.
    + now apply round_page.
Qed.

Lemma endless_pages k p :
  exists payload rows bound flag,
    endless k p (per_page (args_of 3)) = Ok payload
    /\ handled adapt_typed payload rows bound flag
    /\ truthy flag = true.
Proof.
  do 4 eexists. split; [reflexivity|].
  split; [repeat split; reflexivity|reflexivity].
Defined.

Lemma mixed_page_handled :
  handled adapt_typed mixed_page mixed_rows (List.map stored mixed_rows) (JBool false).
Proof. repeat split; vm_compute; reflexivity. Defined.

Lemma loop_advances_on_flag_and_budget_witness :
  (exists st,
      main endless adapt_typed (args_of 3) 3 None = Done st /\ fetches (log st) = 3%nat)
  /\ (exists st,
         main single adapt_typed (args_of 3) 1 None = Done st
         /\ fetches (log st) = 1%nat
         /\ total_inserted st = Z.of_nat (List.length mixed_rows)
         /\ List.length mixed_rows = ids_on_page mixed_page)
  /\ (exists st',
         loop single adapt_typed (args_of 3) 0
           (after_page (args_of 3) (initial None) mixed_page
              mixed_rows (List.map stored mixed_rows) (JBool false)) = Done st'
         /\ fetches (log st') = 1%nat).
Proof.
  split; [|split].
  - apply (proj1 (proj2 (loop_advances_on_flag_and_budget endless adapt_typed (args_of 3)))
             3%nat None 3%nat); auto.
    exact endless_pages.
  - apply (proj2 (proj2 (loop_advances_on_flag_and_budget single adapt_typed (args_of 3)))
             None mixed_page mixed_rows (List.map stored mixed_rows) (JBool false) 1%nat);
      auto.
    + cbn. lia.
    + exact mixed_page_handled.
  - apply (proj1 (loop_advances_on_flag_and_budget single adapt_typed (args_of 3))
             (initial None) mixed_page mixed_rows (List.map stored mixed_rows)
             (JBool false) 0%nat); auto.
    + exact mixed_page_handled.
    + intros [H _]. discriminate.
Defined.

Lemma retry_wait_429 status :
  status <> Some 429%Z -> (0 < retry_wait status < retry_wait (Some 429%Z))%Z.
Proof.
  intros H. unfold retry_wait, status_is.
  destruct status as [s|]; cbn; [|lia].
  destruct (Z.eqb_spec s 429); [congruence|lia].
Qed.

(** C7 (amended).  When the fetch of a page raises [HTTPError], the
    exception of a response with an error status, the round leaves the
    page number, the table and the total as they are, waits, and the
    next fetch is for the same page; the wait is 5 seconds for status
    429 and 3 seconds, strictly less, for any other status or none.
    Any other exception of the fetch, a timeout or a failed connection
    among them, is not retried: the run is aborted after that fetch,
    with no wait.  With a fetcher that answers page 1, fails once with
    status 429 on page 2 and then answers page 2, after which the run
    stops, the run is done, page 2 was fetched exactly twice, and every
    identifier of page 2's rows selects exactly one row of the table;
    the pause of line 155 is one that returns. *)
Theorem http_error_retries_same_page fetch adapt a :
  (forall st status fuel,
      loop_test a st = true ->
      call_fetch fetch a st = Raise (HTTPError status) ->
      round fetch adapt a st = Running (after_retry a st status)
      /\ page (after_retry a st status) = page st
      /\ conn (after_retry a st status) = conn st
      /\ total_inserted (after_retry a st status) = total_inserted st
      /\ exists es,
          log (final_state (loop fetch adapt a (S (S fuel)) st))
          = log st
              ++ [Fetch (page st) (per_page a) (Raise (HTTPError status));
                  Write (Retrying status (page st) (retry_wait status));
                  Sleep (inject_Z (retry_wait status));
                  Fetch (page st) (per_page a)
                    (fetch (S (fetches (log st))) (page st) (per_page a))]
              ++ es)
  /\ (forall status,
         status <> Some 429%Z -> (0 < retry_wait status < retry_wait (Some 429%Z))%Z)
  /\ (forall file p1 rows1 bound1 flag1 p2 rows2 bound2 flag2 fuel,
         (2 <= pages a)%Z ->
         pause_returns (sleep a) = true ->
         unique_ids (ensure_schema file) ->
         fetch 0%nat 1%Z (per_page a) = Ok p1 ->
         handled adapt p1 rows1 bound1 flag1 ->
         truthy flag1 = true ->
         fetch 1%nat 2%Z (per_page a) = Raise (HTTPError (Some 429%Z)) ->
         fetch 2%nat 2%Z (per_page a) = Ok p2 ->
         handled adapt p2 rows2 bound2 flag2 ->
         (truthy flag2 = false \/ pages a = 2%Z) ->
         (3 <= fuel)%nat ->
         exists st,
           main fetch adapt a fuel file = Done st
           /\ fetches_of 2 (log st) = 2%nat
           /\ fetches (log st) = 3%nat
           /\ In (Sleep (inject_Z 5)) (log st)
           /\ unique_ids (conn st)
           /\ (forall x, In x bound2 -> exists y, select (col_id x) (conn st) = [y])
           /\ total_inserted st
              = Z.of_nat (List.length rows1 + List.length rows2))
  /\ (forall st e fuel,
         loop_test a st = true ->
         call_fetch fetch a st = Raise e ->
         (forall status, e <> HTTPError status) ->
         loop fetch adapt a (S fuel) st
         = Aborted e (record st [Fetch (page st) (per_page a) (Raise e)])).
Proof.
  split; [|split; [|split]].
  - intros st status fuel T F.
    split; [now apply round_retry|]. repeat split.
    assert (T' : loop_test a (after_retry a st status) = true) by exact T.
    destruct (loop_next_fetch fetch adapt a fuel _ T') as [es H].
    exists es.
    rewrite (loop_step fetch adapt a (S fuel) st _ T (round_retry fetch adapt a st status F)).
    rewrite H. unfold call_fetch. rewrite fetches_after_retry.
    unfold after_retry, record. cbn [log page]. now rewrite <- app_assoc.
  - exact retry_wait_429.
  - intros file p1 rows1 bound1 flag1 p2 rows2 bound2 flag2 fuel
           Hpages Hsleep Huniq F0 H1 Hflag1 F1 F2 H2 Hend Hfuel.
    apply pause_returns_sleep in Hsleep.
    destruct fuel as [|[|[|fuel]]]; try lia.
    set (s0 := initial file).
    set (s1 := after_page a s0 p1 rows1 bound1 flag1).
    set (s2 := after_retry a s1 (Some 429%Z)).
    set (s3 := after_page a s2 p2 rows2 bound2 flag2).
    assert (T0 : loop_test a s0 = true).
    { unfold loop_test. cbn. apply Z.leb_le. lia. }
    assert (T1 : loop_test a s1 = true).
    { unfold loop_test. cbn [s1 after_page has_next page]. rewrite Hflag1.
      apply Z.leb_le. cbn. lia. }
    assert (T3 : loop_test a s3 = false).
    { unfold loop_test. cbn [s3 after_page has_next page].
      destruct Hend as [->| ->]; [reflexivity|]. now rewrite andb_false_r. }
    assert (C1 : call_fetch fetch a s1 = Raise (HTTPError (Some 429%Z))).
    { unfold call_fetch, s1. rewrite fetches_after_page. exact F1. }
    assert (C2 : call_fetch fetch a s2 = Ok p2).
    { unfold call_fetch, s2. rewrite fetches_after_retry.
      unfold s1. rewrite fetches_after_page. exact F2. }
    unfold main. fold s0.
    rewrite (loop_step fetch adapt a _ s0 s1 T0
               (round_page fetch adapt a s0 p1 rows1 bound1 flag1 F0 H1 Hsleep)).
    rewrite (loop_step fetch adapt a _ s1 s2 T1 (round_retry fetch adapt a s1 _ C1)).
    rewrite (loop_step fetch adapt a _ s2 s3 T1
               (round_page fetch adapt a s2 p2 rows2 bound2 flag2 C2 H2 Hsleep)).
    rewrite (loop_done fetch adapt a _ s3 T3).
    eexists. split; [reflexivity|].
    unfold record. cbn [log conn total_inserted].
    assert (U : unique_ids (conn s3)).
    { cbn. now apply fold_upsert_unique, fold_upsert_unique. }
    repeat split.
    + rewrite fetches_of_app. unfold s3. rewrite fetches_of_after_page.
      unfold s2. rewrite fetches_of_after_retry.
      unfold s1. rewrite fetches_of_after_page. reflexivity.
    + rewrite fetches_app. unfold s3. rewrite fetches_after_page.
      unfold s2. rewrite fetches_after_retry.
      unfold s1. rewrite fetches_after_page. reflexivity.
    + apply in_or_app. left.
      unfold s3, after_page. cbn [log]. apply in_or_app. left.
      unfold s2, after_retry, record. cbn [log]. apply in_or_app. right.
      right. right. left. reflexivity.
    + exact U.
    + intros x Hx. destruct (last_with_id_in x bound2 Hx) as [y Hy].
      exists y. cbn [s3 after_page conn].
      rewrite select_fold_upsert, Hy; [reflexivity|].
      cbn. now apply fold_upsert_unique.
    + cbn. lia.
  - intros st e fuel T F He. apply loop_abort; auto. now apply round_abort.
Qed.

Lemma http_error_retries_same_page_witness :
  (exists st,
      main limited_once adapt_typed (args_of 10) 3 None = Done st
      /\ fetches_of 2 (log st) = 2%nat
      /\ fetches (log st) = 3%nat
      /\ In (Sleep (inject_Z 5)) (log st)
      /\ unique_ids (conn st)
      /\ (forall x, In x [stored (rowT 2)] -> exists y, select (col_id x) (conn st) = [y])
      /\ total_inserted st
         = Z.of_nat (List.length [rowT 1] + List.length [rowT 2]))
  /\ (0 < retry_wait (Some 503%Z) < retry_wait (Some 429%Z))%Z
  /\ round limited_once adapt_typed (args_of 10)
       (after_page (args_of 10) (initial None)
          (page_of [titled (JNum 1) "T"] true) [rowT 1] [stored (rowT 1)] (JBool true))
     = Running
         (after_retry (args_of 10)
            (after_page (args_of 10) (initial None)
               (page_of [titled (JNum 1) "T"] true) [rowT 1] [stored (rowT 1)] (JBool true))
            (Some 429%Z)).
Proof.
  split; [|split].
  - apply (proj1 (proj2 (proj2 (http_error_retries_same_page limited_once adapt_typed (args_of 10))))
             None (page_of [titled (JNum 1) "T"] true) [rowT 1] [stored (rowT 1)] (JBool true)
             (page_of [titled (JNum 2) "T"] false) [rowT 2] [stored (rowT 2)] (JBool false)
             3%nat);
      try reflexivity; try (repeat split; reflexivity); try (cbn; lia).
    constructor.
  - apply (proj1 (proj2 (http_error_retries_same_page limited_once adapt_typed (args_of 10)))).
    discriminate.
  - apply (proj1 (http_error_retries_same_page limited_once adapt_typed (args_of 10))
             _ (Some 429%Z) 0%nat); reflexivity.
Defined.

(** C7 does not hold of every failure of the transport: when the
    second call, for page 2, times out, the run is aborted after that
    one fetch of page 2, with no notice, no wait and no second
    attempt. *)
Lemma timeout_on_page_2_is_not_retried :
  exists st,
    main_on net_stalls_on_page2 adapt_typed (args_of 10) 5 None = Aborted Timeout st
    /\ fetches_of 2 (log st) = 1%nat
    /\ fetches (log st) = 2%nat
    /\ count is_retry_notice (log st) = 0%nat
    /\ last (log st) Update = Fetch 2 50 (Raise Timeout).
Proof.
  eexists. split; [vm_compute; reflexivity|].
  repeat split; vm_compute; reflexivity.
Qed.

(** ** Failures of the fetch *)

Lemma fetch_page_error_status post p pp sc body :
  post p pp = Response sc body ->
  (400 <= sc < 600)%Z ->
  fetch_page post p pp = Raise (HTTPError (Some sc)).
Proof.
  intros H R. unfold fetch_page, raise_for_status. rewrite H.
  assert (((400 <=? sc) && (sc <? 600))%Z = true) as ->; [|reflexivity].
  apply andb_true_iff. split; [apply Z.leb_le|apply Z.ltb_lt]; lia.
Qed.

Lemma fetch_page_no_response post p pp f :
  post p pp = NoResponse f -> fetch_page post p pp = Raise (exn_of_failure f).
Proof. intros H. unfold fetch_page. now rewrite H. Qed.

Lemma fetch_page_errors post p pp sc kv errors :
  post p pp = Response sc (Some (JObj kv)) ->
  ~ (400 <= sc < 600)%Z ->
  lookup (lit "errors") kv = Some errors ->
  fetch_page post p pp = Raise (RuntimeError errors).
Proof.
  intros H R E. unfold fetch_page, raise_for_status. rewrite H.
  assert (((400 <=? sc) && (sc <? 600))%Z = false) as ->.
  { apply andb_false_iff.
    destruct (Z.leb_spec 400 sc); [|now left].
    destruct (Z.ltb_spec sc 600); [|now right]. lia. }
  cbn [bind py_in py_item]. now rewrite E.
Qed.

Lemma exn_of_failure_not_http f status : exn_of_failure f <> HTTPError status.
Proof. destruct f; discriminate. Qed.

Lemma handle_page_refused adapt a st payload rows e :
  page_rows payload = Ok rows ->
  adapt_all adapt rows = Raise e ->
  handle_page adapt a st payload = Aborted e (record st [Executemany rows]).
Proof.
  intros Hrows Hbound. unfold handle_page. rewrite Hrows.
  unfold store_rows. destruct rows as [|r rows]; [discriminate|].
  unfold upsert_batch. now rewrite Hbound.
Qed.

(** C1 (amended).  In a round of the loop, a response with an error
    status (400 to 599, raised as [HTTPError]) makes the driver wait
    and fetch the same page again; a connection failure and a timeout
    raise another exception, which is not caught: the run is aborted
    at once, as it is by the error list of the service
    ([RuntimeError]) and by an error of the store. *)
Theorem error_status_is_retried_other_failures_abort net adapt a st :
  loop_test a st = true ->
  (forall sc body fuel,
      net (fetches (log st)) (page st) (per_page a) = Response sc body ->
      (400 <= sc < 600)%Z ->
      loop (fun k => fetch_page (net k)) adapt a (S fuel) st
      = loop (fun k => fetch_page (net k)) adapt a fuel (after_retry a st (Some sc))
      /\ page (after_retry a st (Some sc)) = page st
      /\ (0 < retry_wait (Some sc))%Z)
  /\ (forall f fuel,
         net (fetches (log st)) (page st) (per_page a) = NoResponse f ->
         loop (fun k => fetch_page (net k)) adapt a (S fuel) st
         = Aborted (exn_of_failure f)
             (record st [Fetch (page st) (per_page a) (Raise (exn_of_failure f))]))
  /\ (forall sc kv errors fuel,
         net (fetches (log st)) (page st) (per_page a) = Response sc (Some (JObj kv)) ->
         ~ (400 <= sc < 600)%Z ->
         lookup (lit "errors") kv = Some errors ->
         loop (fun k => fetch_page (net k)) adapt a (S fuel) st
         = Aborted (RuntimeError errors)
             (record st [Fetch (page st) (per_page a) (Raise (RuntimeError errors))]))
  /\ (forall payload rows e fuel,
         fetch_page (net (fetches (log st))) (page st) (per_page a) = Ok payload ->
         page_rows payload = Ok rows ->
         adapt_all adapt rows = Raise e ->
         loop (fun k => fetch_page (net k)) adapt a (S fuel) st
         = Aborted e
             (record (record st [Fetch (page st) (per_page a) (Ok payload)])
                [Executemany rows])).
Proof.
  intros T. repeat split.
  - apply loop_step; auto. apply round_retry.
    unfold call_fetch. now apply fetch_page_error_status with (body := body).
  - unfold retry_wait. destruct (status_is _ _); lia.
  - intros f fuel H. apply loop_abort; auto.
    apply round_abort.
    + unfold call_fetch. now apply fetch_page_no_response.
    + intros status. apply exn_of_failure_not_http.
  - intros sc kv errors fuel H R E. apply loop_abort; auto.
    apply round_abort; [|discriminate].
    unfold call_fetch. now apply fetch_page_errors with (sc := sc) (kv := kv).
  - intros payload rows e fuel F Hrows Hbound. apply loop_abort; auto.
    unfold round, call_fetch. rewrite F. now apply handle_page_refused.
Qed.

Lemma error_status_is_retried_other_failures_abort_witness :
  loop (fun k => fetch_page (net_busy_once k)) adapt_typed default_args 1 (initial None)
  = loop (fun k => fetch_page (net_busy_once k)) adapt_typed default_args 0
      (after_retry default_args (initial None) (Some 503%Z))
  /\ page (after_retry default_args (initial None) (Some 503%Z)) = page (initial None)
  /\ (0 < retry_wait (Some 503%Z))%Z.
Proof.
  apply (proj1 (error_status_is_retried_other_failures_abort
                  net_busy_once adapt_typed default_args (initial None) eq_refl)
           503%Z None 0%nat).
  - reflexivity.
  - lia.
Defined.

(** C1 does not hold as stated: when the first call times out,
    or the connection fails, the run is aborted after that one fetch,
    with no wait and no second attempt. *)
Lemma timeout_aborts_the_run :
  main_on net_timeout adapt_typed default_args 10 None
  = Aborted Timeout
      {| total_inserted := 0;
         has_next := JBool true;
         page := 1;
         conn := [];
         log := [Fetch 1 50 (Raise Timeout)] |}
  /\ main_on net_refused adapt_typed default_args 10 None
     = Aborted ConnectionError
         {| total_inserted := 0;
            has_next := JBool true;
            page := 1;
            conn := [];
            log := [Fetch 1 50 (Raise ConnectionError)] |}.
Proof. split; reflexivity. Qed.

(** ** The reported total *)

(** C10.  When a run is done, the total it reports is the sum, over
    the pages that were fetched, of the number of items with an
    identifier on the page; an identifier that comes on two pages is
    counted twice, so that the total can exceed the number of rows of
    the table. *)
Theorem total_counts_items_with_identifier :
  (forall fetch adapt a fuel file st,
      main fetch adapt a fuel file = Done st ->
      total_inserted st = Z.of_nat (sum (List.map ids_on_page (fetched (log st))))
      /\ last (log st) Update = Write (Finished (total_inserted st) (db a)))
  /\ (exists st,
         main endless adapt_typed (args_of 2) 5 None = Done st
         /\ List.map ids_on_page (fetched (log st)) = [1%nat; 1%nat]
         /\ total_inserted st = 2%Z
         /\ conn st = [stored (rowT 1)]).
Proof.
  split.
  - intros fetch adapt a fuel file st H.
    apply (loop_counted fetch adapt a fuel (initial file)); auto.
    apply initial_counted.
  - eexists. split; [vm_compute; reflexivity|].
    repeat split; vm_compute; reflexivity.
Qed.

Lemma total_counts_items_with_identifier_witness :
  total_inserted
    (final_state (main endless adapt_typed (args_of 2) 5 None))
  = Z.of_nat
      (sum (List.map ids_on_page
              (fetched (log (final_state (main endless adapt_typed (args_of 2) 5 None)))))).
Proof.
  apply (proj1 total_counts_items_with_identifier
           endless adapt_typed (args_of 2) 5%nat None).
  vm_compute. reflexivity.
Defined.

(** * Further properties *)

(** ** The normalizer *)

Lemma match_here_suffix ic re :
  forall s r,
    Re.match_here ic re s = Some r ->
    exists w, s = w ++ r /\ (Re.min_len re <= length w)%nat.
Proof.
  induction re as [|a re IH]; intros s r H; cbn [Re.match_here Re.min_len] in *.
  - inversion H; subst. exists []. split; [reflexivity|simpl; lia].
  - apply ReFacts.rep_sound in H as (w & s2 & -> & _ & Hlo & _ & H).
    destruct (IH _ _ H) as (w' & -> & Hw').
    exists (w ++ w'). rewrite app_assoc, length_app. split; [reflexivity|lia].
Qed.

(** What [sub] returns is made of characters of the text and of the
    replacement. *)
Lemma sub_loop_In ic re repl x fuel :
  forall s, In x (Re.sub_loop fuel ic re repl s) -> In x s \/ In x repl.
Proof.
  induction fuel as [|fuel IH]; intros s H; cbn [Re.sub_loop] in H; [now left|].
  destruct s as [|c s]; [now left|].
  assert (copy : In x (c :: Re.sub_loop fuel ic re repl s) -> In x (c :: s) \/ In x repl).
  { intros [->|Hx]; [left; now left|].
    destruct (IH _ Hx); [left; now right|now right]. }
  destruct (Re.match_here ic re (c :: s)) as [rest|] eqn:E; [|now apply copy].
  destruct (length rest <? length (c :: s))%nat; [|now apply copy].
  apply in_app_or in H as [H|H]; [now right|].
  destruct (IH _ H) as [Hr|Hr]; [|now right].
  destruct (match_here_suffix _ _ _ _ E) as (w & -> & _).
  left. apply in_or_app. now right.
Qed.

(** [sub] does not lengthen a text when the replacement is no longer
    than the shortest match. *)
Lemma sub_loop_length ic re repl fuel :
  (length repl <= Re.min_len re)%nat ->
  forall s, (length (Re.sub_loop fuel ic re repl s) <= length s)%nat.
Proof.
  intros Hrepl. induction fuel as [|fuel IH]; intros s; cbn [Re.sub_loop]; [lia|].
  destruct s as [|c s]; [simpl; lia|].
  assert (copy : (length (c :: Re.sub_loop fuel ic re repl s) <= length (c :: s))%nat)
    by (simpl; specialize (IH s); lia).
  destruct (Re.match_here ic re (c :: s)) as [rest|] eqn:E; [|exact copy].
  destruct (length rest <? length (c :: s))%nat; [|exact copy].
  destruct (match_here_suffix _ _ _ _ E) as (w & Hw & Hlen).
  rewrite Hw, !length_app. specialize (IH rest). lia.
Qed.

Lemma replace_loop_length old new fuel :
  (length new <= length old)%nat ->
  forall s, (length (replace_loop fuel old new s) <= length s)%nat.
Proof.
  intros Hnew. induction fuel as [|fuel IH]; intros s; cbn [replace_loop]; [lia|].
  destruct s as [|c s]; [simpl; lia|].
  destruct (strip_prefix old (c :: s)) as [rest|] eqn:E.
  - apply strip_prefix_spec in E. rewrite E, !length_app. specialize (IH rest). lia.
  - simpl. specialize (IH s). lia.
Qed.

Lemma replace_length old new s :
  old <> [] -> (length new <= length old)%nat ->
  (length (replace old new s) <= length s)%nat.
Proof.
  intros Hne Hnew. destruct old; [congruence|]. now apply replace_loop_length.
Qed.

Lemma strip_length s : (length (strip s) <= length s)%nat.
Proof.
  destruct (strip_parts s) as (lead & trail & H & _).
  rewrite H at 2. rewrite !length_app. lia.
Qed.

Lemma decode_entities_length s : (length (decode_entities s) <= length s)%nat.
Proof.
  unfold decode_entities.
  repeat (etransitivity; [apply replace_length; [discriminate|cbn; lia]|]).
  lia.
Qed.

(** X4.  The normalizer never lengthens a text. *)
Theorem clean_description_length text :
  (length (clean_description text) <= length text)%nat.
Proof.
  destruct text as [|c text]; [simpl; lia|].
  unfold clean_description.
  etransitivity; [apply strip_length|].
  etransitivity; [apply sub_loop_length; cbn; lia|].
  etransitivity; [apply sub_loop_length; cbn; lia|].
  etransitivity; [apply decode_entities_length|].
  etransitivity; [apply sub_loop_length; cbn; lia|].
  apply sub_loop_length; cbn; lia.
Qed.

Lemma ends_clean_strip s : ends_clean (strip s) = true.
Proof. now destruct (strip_parts s) as (_ & _ & _ & _ & _ & _ & H). Qed.

Lemma starts_clean_strip s : starts_clean (strip s) = true.
Proof. now destruct (strip_parts s) as (_ & _ & _ & _ & _ & H & _). Qed.

Lemma clean_description_no_blank_line text :
  contains [NL; NL] (clean_description text) = false.
Proof.
  destruct (contains [NL; NL] (clean_description text)) eqn:E; [|reflexivity].
  apply contains_spec in E as (pre & post & E).
  assert (space_before_nl (clean_description text) = true)
    by (apply space_before_nl_spec; exists pre, NL, post; now rewrite E).
  now rewrite clean_description_space in *.
Qed.

(** X1.  Whatever the text, the result neither starts nor ends with a
    whitespace character, has no whitespace character right before a
    newline and so never two newlines in a row: no blank line is
    left. *)
Theorem clean_description_output_shape text :
  starts_clean (clean_description text) = true
  /\ ends_clean (clean_description text) = true
  /\ space_before_nl (clean_description text) = false
  /\ contains [NL; NL] (clean_description text) = false.
Proof.
  repeat split.
  - destruct text; [reflexivity|apply starts_clean_strip].
  - destruct text; [reflexivity|apply ends_clean_strip].
  - apply clean_description_space.
  - apply clean_description_no_blank_line.
Qed.

(** X2.  Line 57 never changes anything: line 56 leaves no newline
    behind a whitespace character, a newline included, so that no run
    of three newlines reaches [\n{3,}]. *)
Theorem clean_description_without_line_57 text :
  clean_description text = clean_description_56 text
  /\ Re.sub false re_nl3 [NL; NL] (Re.sub false re_space_nl [NL] text)
     = Re.sub false re_space_nl [NL] text.
Proof.
  split; [|apply nl3_after_space_nl].
  destruct text; [reflexivity|].
  unfold clean_description, clean_description_56. now rewrite nl3_after_space_nl.
Qed.

(** *** Tags *)

Lemma rep_zero p k s : Re.rep p 0 (Some 0) k s = k s.
Proof. destruct s; simpl; [reflexivity|]. now rewrite andb_false_r. Qed.

Lemma rep_one_cons p k c s :
  Re.rep p 1 (Some 1) k (c :: s) = if p c then k s else None.
Proof.
  cbn [Re.rep Re.room Re.less option_map pred]. rewrite andb_true_r, rep_zero.
  destruct (p c); [|reflexivity]. now destruct (k s).
Qed.

Lemma rep_plus_cons p k c s :
  Re.rep p 1 None k (c :: s) = if p c then Re.rep p 0 None k s else None.
Proof.
  cbn [Re.rep Re.room Re.less option_map pred]. rewrite andb_true_r.
  destruct (p c); [|reflexivity]. now destruct (Re.rep p 0 None k s).
Qed.

Lemma star_not_gt k t :
  existsb (N.eqb GT) t = true ->
  (forall r, k (GT :: r) = Some r) ->
  exists r, Re.rep (Re.in_class false (Re.NotChr GT)) 0 None k t = Some r.
Proof.
  intros H Hk. induction t as [|d t IH]; [discriminate|].
  cbn [existsb] in H. rewrite rep_star_cons.
  cbn [Re.in_class]. rewrite (N.eqb_sym GT d) in H.
  destruct (N.eqb_spec d GT) as [->|Hd]; cbn [negb orb] in *; [rewrite Hk; eauto|].
  destruct (IH H) as [r ->]. eauto.
Qed.

(** The pattern of line 49 matches at every [<] that opens a tag. *)
Lemma match_tag_opens t :
  opens t = true -> exists r, Re.match_here false re_tag (LT :: t) = Some r.
Proof.
  unfold re_tag. cbn [Re.match_here Re.one Re.plus Re.cls Re.rmin Re.rmax].
  destruct t as [|c t]; [discriminate|]. cbn [opens]. intros H.
  apply andb_true_iff in H as [Hc Hgt].
  rewrite rep_one_cons. cbn [Re.in_class]. rewrite N.eqb_refl.
  rewrite rep_plus_cons. cbn [Re.in_class]. rewrite Hc.
  apply star_not_gt; [exact Hgt|].
  intros r. rewrite rep_one_cons. cbn [Re.in_class]. now rewrite N.eqb_refl.
Qed.

(** Where it matches, the text starts with [<], a character other
    than [>], and has a [>] further on. *)
Lemma match_tag_inv s r :
  Re.match_here false re_tag s = Some r ->
  exists t, s = LT :: t /\ opens t = true.
Proof.
  unfold re_tag. cbn [Re.match_here Re.one Re.plus Re.cls Re.rmin Re.rmax].
  intros H.
  apply ReFacts.rep_sound in H as (w1 & s1 & -> & Hw1 & Hlo1 & Hhi1 & H).
  apply ReFacts.rep_sound in H as (w2 & s2 & -> & Hw2 & Hlo2 & _ & H).
  apply ReFacts.rep_sound in H as (w3 & s3 & -> & Hw3 & Hlo3 & Hhi3 & H).
  destruct (one_char w1 Hlo1 Hhi1) as [c1 ->].
  destruct (one_char w3 Hlo3 Hhi3) as [c3 ->].
  destruct w2 as [|c2 w2]; [simpl in Hlo2; lia|].
  cbn in Hw1, Hw2, Hw3.
  rewrite andb_true_r in Hw1, Hw3.
  apply andb_true_iff in Hw2 as [Hc2 _].
  apply N.eqb_eq in Hw1, Hw3. subst c1 c3.
  eexists. split; [reflexivity|].
  cbn [app opens]. rewrite Hc2, existsb_app. cbn [existsb].
  rewrite N.eqb_refl. cbn [orb andb]. apply orb_true_r.
Qed.

Lemma opens_gt t : opens t = true -> existsb (N.eqb GT) t = true.
Proof.
  destruct t as [|c t]; [discriminate|]. cbn [opens existsb]. intros H.
  apply andb_true_iff in H as [_ ->]. apply orb_true_r.
Qed.

Lemma sub_tag_gt fuel :
  forall s, existsb (N.eqb GT) (Re.sub_loop fuel false re_tag [] s) = true ->
            existsb (N.eqb GT) s = true.
Proof.
  intros s H. apply existsb_exists in H as (x & Hin & Hx).
  apply existsb_exists. exists x. split; [|exact Hx].
  now destruct (sub_loop_In _ _ _ _ _ _ Hin) as [?|[]].
Qed.

Lemma opens_sub_tag fuel :
  forall t, opens (Re.sub_loop fuel false re_tag [] t) = true -> opens t = true.
Proof.
  intros t. destruct fuel as [|fuel]; [trivial|].
  cbn [Re.sub_loop]. destruct t as [|d t]; [trivial|].
  assert (copy : opens (d :: Re.sub_loop fuel false re_tag [] t) = true ->
                 opens (d :: t) = true).
  { cbn [opens]. intros H. apply andb_true_iff in H as [-> H].
    now rewrite (sub_tag_gt _ _ H). }
  destruct (Re.match_here false re_tag (d :: t)) as [rest|] eqn:E; [|exact copy].
  destruct (length rest <? length (d :: t))%nat; [|exact copy].
  intros _. apply match_tag_inv in E as (t' & [= -> <-] & Ho).
  cbn [opens]. now rewrite (opens_gt _ Ho).
Qed.

Lemma sub_tag_clean text : has_markup (Re.sub false re_tag [] text) = false.
Proof.
  unfold Re.sub. generalize (le_n (length text)).
  generalize (length text) at 2 3 as fuel. intros fuel. revert text.
  induction fuel as [|fuel IH]; intros text Hlen.
  - destruct text; [reflexivity|simpl in Hlen; lia].
  - cbn [Re.sub_loop]. destruct text as [|c text]; [reflexivity|].
    simpl in Hlen.
    destruct (Re.match_here false re_tag (c :: text)) as [rest|] eqn:E.
    + assert (Hlt : (length rest < length (c :: text))%nat).
      { apply (patterns_consume (c :: text) rest). right. now left. }
      apply Nat.ltb_lt in Hlt as Hb. rewrite Hb. cbn [app].
      apply IH. simpl in Hlt. lia.
    + cbn [has_markup]. rewrite IH by lia. rewrite orb_false_r.
      destruct (N.eqb_spec c LT) as [->|]; [|reflexivity]. cbn [andb].
      destruct (opens (Re.sub_loop fuel false re_tag [] text)) eqn:Ho; [|reflexivity].
      apply opens_sub_tag, match_tag_opens in Ho as [r Hr]. congruence.
Qed.

(** X3.  After line 49 no tag is left in the text: every [<] that
    remains is followed at once by [>], or by no [>] at all; removing
    the tags a second time changes nothing. *)
Theorem sub_tag_leaves_no_markup text :
  has_markup (Re.sub false re_tag [] text) = false
  /\ Re.sub false re_tag [] (Re.sub false re_tag [] text) = Re.sub false re_tag [] text.
Proof.
  split; [apply sub_tag_clean|]. apply sub_tag_plain, sub_tag_clean.
Qed.

(** *** Texts without ampersand, blank texts *)

Lemma In_existsb c (s : str) : existsb (N.eqb c) s = false -> ~ In c s.
Proof.
  intros H Hin. assert (existsb (N.eqb c) s = true); [|congruence].
  apply existsb_exists. exists c. split; [exact Hin|apply N.eqb_refl].
Qed.

Lemma existsb_In c (s : str) : ~ In c s -> existsb (N.eqb c) s = false.
Proof.
  intros H. destruct (existsb (N.eqb c) s) eqn:E; [|reflexivity].
  apply existsb_exists in E as (x & Hin & Hx). apply N.eqb_eq in Hx. now subst.
Qed.

Lemma has_entity_amp s : has_entity s = true -> In AMP s.
Proof.
  unfold has_entity, entities. cbn [existsb]. intros H.
  repeat (apply orb_true_iff in H; destruct H as [H|H]);
    try discriminate;
    apply contains_spec in H as (pre & post & ->);
    apply in_or_app; right; now left.
Qed.

Lemma has_markup_lt s : has_markup s = true -> In LT s.
Proof.
  intros H. apply has_markup_spec in H as (pre & body & post & -> & _).
  apply in_or_app. right. now left.
Qed.

Lemma has_markup_app_l a b : has_markup a = true -> has_markup (a ++ b) = true.
Proof.
  intros H. apply has_markup_spec in H as (pre & body & post & -> & Hne & Hb).
  apply has_markup_spec. exists pre, body, (post ++ b).
  rewrite <- !app_assoc. cbn [app]. rewrite <- !app_assoc. now cbn [app].
Qed.

Lemma sub_space_nl_gt s :
  existsb (N.eqb GT) (Re.sub false re_space_nl [NL] s) = true ->
  existsb (N.eqb GT) s = true.
Proof.
  intros H. apply existsb_exists in H as (x & Hin & Hx).
  apply existsb_exists. exists x. split; [|exact Hx].
  apply N.eqb_eq in Hx. subst x.
  destruct (sub_loop_In _ _ _ _ _ _ Hin) as [?|[?|[]]]; [assumption|discriminate].
Qed.

Lemma opens_sub_space_nl t :
  opens (Re.sub false re_space_nl [NL] t) = true -> opens t = true.
Proof.
  destruct t as [|d t]; [trivial|]. rewrite sub_space_nl_cons.
  assert (copy : opens (d :: Re.sub false re_space_nl [NL] t) = true ->
                 opens (d :: t) = true).
  { cbn [opens]. intros H. apply andb_true_iff in H as [-> H].
    now rewrite (sub_space_nl_gt _ H). }
  destruct (isspace d) eqn:Ed; [|exact copy].
  destruct (last_nl_of_run t) as [rest|] eqn:E; [|exact copy].
  cbn [opens]. intros H. apply andb_true_iff in H as [_ H].
  apply sub_space_nl_gt in H.
  destruct (last_nl_suffix _ _ E) as (pre & Hpre & _).
  rewrite Hpre, existsb_app. apply andb_true_iff. split.
  - destruct (N.eqb_spec d GT) as [->|]; [discriminate|reflexivity].
  - apply orb_true_iff. right. exact H.
Qed.

Lemma has_markup_sub_space_nl n :
  forall s, (length s <= n)%nat ->
            has_markup (Re.sub false re_space_nl [NL] s) = true ->
            has_markup s = true.
Proof.
  induction n as [|n IH]; intros s Hlen.
  - destruct s; [trivial|simpl in Hlen; lia].
  - destruct s as [|c s]; [trivial|]. simpl in Hlen. rewrite sub_space_nl_cons.
    assert (copy : has_markup (c :: Re.sub false re_space_nl [NL] s) = true ->
                   has_markup (c :: s) = true).
    { cbn [has_markup]. intros H. apply orb_true_iff in H as [H|H].
      - apply andb_true_iff in H as [-> H].
        now rewrite (opens_sub_space_nl _ H).
      - rewrite (IH s) by (auto; lia). apply orb_true_r. }
    destruct (isspace c) eqn:Ec; [|exact copy].
    destruct (last_nl_of_run s) as [rest|] eqn:E; [|exact copy].
    destruct (last_nl_suffix _ _ E) as (pre & Hpre & _).
    destruct (last_nl_some _ _ E) as [_ Hlt].
    cbn [has_markup]. change (NL =? LT)%N with false. cbn [andb orb].
    intros H. apply IH in H; [|lia].
    rewrite Hpre. apply (has_markup_app (c :: pre)), H.
Qed.

Lemma has_markup_strip s : has_markup (strip s) = true -> has_markup s = true.
Proof.
  intros H. destruct (strip_parts s) as (lead & trail & Hs & _).
  rewrite Hs. now apply has_markup_app, has_markup_app_l.
Qed.

(** X5.  When the text has no ampersand, the result has no tag: only
    an entity can bring one into the output. *)
Theorem clean_description_no_markup text :
  existsb (N.eqb AMP) text = false ->
  has_markup (clean_description text) = false.
Proof.
  intros Hamp. destruct text as [|c text]; [reflexivity|].
  unfold clean_description.
  set (t1 := Re.sub true re_br [NL] (c :: text)).
  set (t2 := Re.sub false re_tag [] t1).
  assert (H2 : ~ In AMP t2).
  { intros H. destruct (sub_loop_In _ _ _ _ _ _ H) as [H1|[]].
    destruct (sub_loop_In _ _ _ _ _ _ H1) as [H0|[?|[]]]; [|discriminate].
    now apply (In_existsb _ _ Hamp). }
  rewrite decode_entities_plain.
  - rewrite nl3_after_space_nl.
    destruct (has_markup (strip (Re.sub false re_space_nl [NL] t2))) eqn:E;
      [|reflexivity].
    apply has_markup_strip, (has_markup_sub_space_nl _ _ (le_n _)) in E.
    unfold t2 in E. now rewrite sub_tag_clean in E.
  - destruct (has_entity t2) eqn:E; [|reflexivity].
    now apply has_entity_amp in E.
Qed.

Lemma clean_description_no_markup_witness :
  has_markup (clean_description tagged_text) = false.
Proof. apply clean_description_no_markup. vm_compute. reflexivity. Defined.

(** X6.  A text of whitespace only is normalized to the empty text. *)
Theorem clean_description_blank text :
  forallb isspace text = true -> clean_description text = [].
Proof.
  intros Hws.
  assert (Hin : forall x, In x text -> isspace x = true)
    by now apply forallb_forall.
  rewrite clean_description_whitespace.
  - replace (Re.sub false re_space_nl [NL] text)
      with (Re.sub false re_space_nl [NL] text ++ [] ++ [])
      by (cbn [app]; apply app_nil_r).
    apply strip_sandwich; auto. now apply sub_space_nl_ws.
  - destruct (has_markup text) eqn:E; [|reflexivity].
    apply has_markup_lt, Hin in E. discriminate.
  - destruct (has_entity text) eqn:E; [|reflexivity].
    apply has_entity_amp, Hin in E. discriminate.
Qed.

Lemma clean_description_blank_witness : clean_description blank_text = [].
Proof. apply clean_description_blank. vm_compute. reflexivity. Defined.

(** ** The page fetcher *)

Lemma error_status_spec sc :
  ((400 <=? sc) && (sc <? 600))%Z = true <-> (400 <= sc < 600)%Z.
Proof.
  rewrite andb_true_iff, Z.leb_le, Z.ltb_lt. reflexivity.
Qed.

Lemma fetch_page_response post p pp sc body :
  post p pp = Response sc body ->
  fetch_page post p pp
  = if ((400 <=? sc) && (sc <? 600))%Z then Raise (HTTPError (Some sc))
    else match body with
         | None => Raise JSONDecodeError
         | Some data =>
             has_errors <- py_in (lit "errors") data ;;
             if has_errors : bool then
               errors <- py_item data (lit "errors") ;;
               Raise (RuntimeError errors)
             else
               d <- py_item data (lit "data") ;;
               py_item d (lit "Page")
         end.
Proof.
  intros H. unfold fetch_page, raise_for_status. rewrite H.
  now destruct ((400 <=? sc) && (sc <? 600))%Z.
Qed.

(** X7.  [fetch_page] returns a page exactly when there is a response
    whose status is outside 400..599 and whose body is a JSON object
    without the key [errors], with an object under [data] that has the
    key [Page]; the page is the value of that key. *)
Theorem fetch_page_ok_iff post p pp payload :
  fetch_page post p pp = Ok payload
  <-> exists sc kv holder,
      post p pp = Response sc (Some (JObj kv))
      /\ ~ (400 <= sc < 600)%Z
      /\ lookup (lit "errors") kv = None
      /\ lookup (lit "data") kv = Some (JObj holder)
      /\ lookup (lit "Page") holder = Some payload.
Proof.
  split.
  - destruct (post p pp) as [f|sc body] eqn:E.
    + unfold fetch_page. rewrite E. discriminate.
    + rewrite (fetch_page_response _ _ _ _ _ E).
      destruct ((400 <=? sc) && (sc <? 600))%Z eqn:R; [discriminate|].
      assert (~ (400 <= sc < 600)%Z)
        by (intros Hr; apply error_status_spec in Hr; congruence).
      destruct body as [data|]; [|discriminate].
      destruct data as [| | |s|l|kv]; try discriminate.
      * cbn [py_in bind]. destruct (contains (lit "errors") s); discriminate.
      * cbn [py_in bind]. destruct (existsb (is_str (lit "errors")) l); discriminate.
      * cbn [py_in py_item bind].
        destruct (lookup (lit "errors") kv) eqn:Eerr; [discriminate|].
        destruct (lookup (lit "data") kv) as [d|] eqn:Edata; [|discriminate].
        cbn [bind]. destruct d as [| | | | |holder]; try discriminate.
        cbn [py_item].
        destruct (lookup (lit "Page") holder) eqn:Epage; [|discriminate].
        intros [= <-]. exists sc, kv, holder. auto.
  - intros (sc & kv & holder & E & R & Eerr & Edata & Epage).
    rewrite (fetch_page_response _ _ _ _ _ E).
    destruct ((400 <=? sc) && (sc <? 600))%Z eqn:Rb;
      [apply error_status_spec in Rb; contradiction|].
    cbn [py_in py_item bind]. rewrite Eerr, Edata. cbn [bind py_item].
    now rewrite Epage.
Qed.

(** X8.  [fetch_page] raises [HTTPError] exactly for a response with
    a status from 400 to 599, and the error then carries that status:
    the handler of line 120 never finds the status absent. *)
Theorem fetch_page_http_error_iff post p pp status :
  fetch_page post p pp = Raise (HTTPError status)
  <-> exists sc body,
      post p pp = Response sc body /\ (400 <= sc < 600)%Z /\ status = Some sc.
Proof.
  split.
  - destruct (post p pp) as [f|sc body] eqn:E.
    + unfold fetch_page. rewrite E. destruct f; discriminate.
    + rewrite (fetch_page_response _ _ _ _ _ E).
      destruct ((400 <=? sc) && (sc <? 600))%Z eqn:R.
      * intros [= <-]. exists sc, body. apply error_status_spec in R. auto.
      * destruct body as [data|]; [|discriminate].
        destruct data as [| | |s|l|kv]; try discriminate; cbn [py_in py_item bind].
        -- destruct (contains (lit "errors") s); discriminate.
        -- destruct (existsb (is_str (lit "errors")) l); discriminate.
        -- destruct (lookup (lit "errors") kv); [discriminate|].
           destruct (lookup (lit "data") kv) as [d|]; [|discriminate].
           cbn [bind]. destruct d as [| | | | |holder]; try discriminate.
           cbn [py_item]. destruct (lookup (lit "Page") holder); discriminate.
  - intros (sc & body & E & R & ->).
    now apply fetch_page_error_status with (body := body).
Qed.

(** X23.  [fetch_page] raises the [RuntimeError] of line 66 exactly
    when there is a response whose status is outside 400..599 and
    whose body is a JSON object with the key [errors]; the error then
    carries the value of that key, whatever else the body holds. *)
Theorem fetch_page_runtime_error_iff post p pp errors :
  fetch_page post p pp = Raise (RuntimeError errors)
  <-> exists sc kv,
      post p pp = Response sc (Some (JObj kv))
      /\ ~ (400 <= sc < 600)%Z
      /\ lookup (lit "errors") kv = Some errors.
Proof.
  split.
  - destruct (post p pp) as [f|sc body] eqn:E.
    + unfold fetch_page. rewrite E. destruct f; discriminate.
    + rewrite (fetch_page_response _ _ _ _ _ E).
      destruct ((400 <=? sc) && (sc <? 600))%Z eqn:R; [discriminate|].
      assert (~ (400 <= sc < 600)%Z)
        by (intros Hr; apply error_status_spec in Hr; congruence).
      destruct body as [data|]; [|discriminate].
      destruct data as [| | |s|l|kv]; try discriminate; cbn [py_in py_item bind].
      * destruct (contains (lit "errors") s); discriminate.
      * destruct (existsb (is_str (lit "errors")) l); discriminate.
      * destruct (lookup (lit "errors") kv) as [errs|] eqn:Eerr.
        -- cbn [bind]. intros [= <-]. exists sc, kv. auto.
        -- destruct (lookup (lit "data") kv) as [d|]; [|discriminate].
           cbn [bind]. destruct d as [| | | | |holder]; try discriminate.
           cbn [py_item]. destruct (lookup (lit "Page") holder); discriminate.
  - intros (sc & kv & E & R & Eerr).
    rewrite (fetch_page_response _ _ _ _ _ E).
    destruct ((400 <=? sc) && (sc <? 600))%Z eqn:Rb;
      [apply error_status_spec in Rb; contradiction|].
    cbn [py_in py_item bind]. now rewrite Eerr.
Qed.

(** ** The mapper *)

(** The comprehension of lines 130 and 132, in closed form. *)
Lemma names_of_eq nodes :
  names_of nodes
  = if forallb is_node nodes then Ok (kept_names nodes) else Raise AttributeError.
Proof.
  induction nodes as [|s nodes IH]; [reflexivity|].
  cbn [names_of forallb]. rewrite IH.
  replace (is_node s) with (negb (truthy s) || is_obj s) by reflexivity.
  unfold kept_names at 3. cbn [filter].
  destruct (truthy s) eqn:Ts; cbn [negb orb bind].
  - destruct s as [|b|z|t|l|kv]; try reflexivity.
    cbn [is_obj andb py_get bind List.map field].
    destruct (truthy match lookup (lit "name") kv with Some x => x | None => JNull end)
      eqn:Tn; cbn [bind filter]; rewrite ?Tn;
      now destruct (forallb is_node nodes).
  - now destruct (forallb is_node nodes).
Qed.

Lemma kept_names_truthy nodes : all_truthy (kept_names nodes) = true.
Proof.
  unfold all_truthy, kept_names. apply forallb_forall.
  intros x Hx. now apply filter_In in Hx.
Qed.

Lemma filter_length_le {A} (p : A -> bool) l :
  (List.length (filter p l) <= List.length l)%nat.
Proof. induction l as [|x l IH]; simpl; [lia|]. destruct (p x); simpl; lia. Qed.

(** X9.  The comprehension [[s.get("name") for s in nodes if s and
    s.get("name")]] returns the names that are true of the nodes that
    are true, in order, when every true node is an object, and raises
    [AttributeError] otherwise; it never returns more names than there
    are nodes, nor a false name. *)
Theorem names_of_spec nodes :
  (forallb is_node nodes = true ->
   names_of nodes = Ok (kept_names nodes)
   /\ all_truthy (kept_names nodes) = true
   /\ (List.length (kept_names nodes) <= List.length nodes)%nat)
  /\ (forallb is_node nodes = false -> names_of nodes = Raise AttributeError).
Proof.
  rewrite names_of_eq. split; intros ->; [|reflexivity].
  split; [reflexivity|]. split; [apply kept_names_truthy|].
  unfold kept_names.
  etransitivity; [apply filter_length_le|].
  rewrite length_map. apply filter_length_le.
Qed.

Lemma names_of_spec_witness :
  names_of [JObj [(lit "name", JStr (lit "A"))]; JNull; JObj [(lit "name", JNull)]]
  = Ok [JStr (lit "A")]
  /\ names_of [JNull; JNum 3] = Raise AttributeError.
Proof.
  split.
  - refine (proj1 (proj1 (names_of_spec
             [JObj [(lit "name", JStr (lit "A"))]; JNull; JObj [(lit "name", JNull)]]) _)).
    reflexivity.
  - refine (proj2 (names_of_spec [JNull; JNum 3]) _). reflexivity.
Defined.

Lemma map_item_not_obj m : is_obj m = false -> map_item m = Raise AttributeError.
Proof. destruct m; try reflexivity. discriminate. Qed.

Lemma map_items_fail m media :
  In m media -> (forall r, map_item m <> Ok r) -> exists e, map_items media = Raise e.
Proof.
  intros Hin Hm. induction media as [|m0 media IH]; [destruct Hin|].
  cbn [map_items]. destruct (map_item m0) as [r0|e] eqn:E; cbn [bind]; [|eauto].
  destruct Hin as [->|Hin]; [now destruct (Hm r0)|].
  destruct (IH Hin) as [e ->]. cbn [bind]. eauto.
Qed.

(** X10.  A page is mapped as a whole or not at all: one item that is
    not an object, a null for one, makes the mapping of the page raise,
    and the round is aborted before anything of the page reaches the
    store. *)
Theorem page_rows_bad_item payload media m :
  py_get payload (lit "media") (JList []) = Ok (JList media) ->
  In m media ->
  is_obj m = false ->
  exists e,
    page_rows payload = Raise e
    /\ forall adapt a st, handle_page adapt a st payload = Aborted e st.
Proof.
  intros Hmedia Hin Hobj.
  destruct (map_items_fail m media Hin) as [e He].
  { intros r. rewrite (map_item_not_obj _ Hobj). discriminate. }
  assert (Hpage : page_rows payload = Raise e).
  { unfold page_rows. rewrite Hmedia. exact He. }
  exists e. split; [exact Hpage|].
  intros adapt a st. unfold handle_page. now rewrite Hpage.
Qed.

Lemma page_rows_bad_item_witness :
  exists e,
    page_rows broken_page = Raise e
    /\ forall adapt a st, handle_page adapt a st broken_page = Aborted e st.
Proof.
  apply (page_rows_bad_item broken_page
           [titled (JNum 1) "One"; JNull; item5] JNull).
  - reflexivity.
  - right. left. reflexivity.
  - reflexivity.
Defined.

Lemma call_clean_description_inv v text :
  call_clean_description v = Ok text ->
  text = [] \/ exists s, text = clean_description s.
Proof.
  unfold call_clean_description. destruct (truthy v); [|intros [= <-]; now left].
  destruct v; try discriminate. intros [= <-]. right. eauto.
Qed.

Lemma names_of_truthy nodes names :
  names_of nodes = Ok names -> all_truthy names = true.
Proof.
  rewrite names_of_eq. destruct (forallb is_node nodes); [|discriminate].
  intros [= <-]. apply kept_names_truthy.
Qed.

Lemma map_item_fields m r :
  map_item m = Ok r ->
  (description r = [] \/ exists s, description r = clean_description s)
  /\ exists tag_names studio_names,
      tags r = dumps (JList tag_names)
      /\ studios r = dumps (JList studio_names)
      /\ all_truthy tag_names = true
      /\ all_truthy studio_names = true.
Proof.
  unfold map_item. intros H. repeat bind_inv H.
  inversion H; subst; clear H. cbn [description tags studios]. split.
  - eapply call_clean_description_inv; eauto.
  - do 2 eexists. repeat split; eauto using names_of_truthy.
Qed.

Lemma map_items_rows media :
  forall rows,
    map_items media = Ok rows ->
    Forall (fun r => is_not_None (id r) = true
                     /\ exists m, In m media /\ map_item m = Ok r) rows.
Proof.
  induction media as [|m media IH]; intros rows H; cbn [map_items] in H.
  - inversion H. constructor.
  - bind_inv H. bind_inv H. inversion H; subst; clear H.
    assert (Hrest : Forall (fun r => is_not_None (id r) = true
                                     /\ exists m0, In m0 (m :: media) /\ map_item m0 = Ok r) v0).
    { eapply Forall_impl; [|apply (IH _ E0)].
      intros r (Hid & m0 & Hin & Hm). split; auto. exists m0. split; auto. now right. }
    destruct (is_not_None (id v)) eqn:Hid; [|exact Hrest].
    constructor; [|exact Hrest]. split; auto. exists m. split; auto. now left.
Qed.

Lemma clean_or_empty text :
  (text = [] \/ exists s, text = clean_description s) ->
  strip text = text /\ contains [NL; NL] text = false.
Proof.
  intros [->|[s ->]]; [split; reflexivity|].
  split; [apply clean_description_stripped|apply clean_description_no_blank_line].
Qed.

(** X11.  Every row that the mapping of a page produces has an
    identifier other than [None], a description that is trimmed and
    has no blank line, and, for tags and studios, the JSON text of a
    list of names none of which is false. *)
Theorem page_rows_invariants payload rows :
  page_rows payload = Ok rows ->
  Forall (fun r =>
            is_not_None (id r) = true
            /\ strip (description r) = description r
            /\ contains [NL; NL] (description r) = false
            /\ exists tag_names studio_names,
                tags r = dumps (JList tag_names)
                /\ studios r = dumps (JList studio_names)
                /\ all_truthy tag_names = true
                /\ all_truthy studio_names = true) rows.
Proof.
  unfold page_rows. intros H. bind_inv H. bind_inv H.
  eapply Forall_impl; [|apply (map_items_rows _ _ H)].
  intros r (Hid & m & _ & Hm).
  destruct (map_item_fields _ _ Hm) as [Hd Hn].
  destruct (clean_or_empty _ Hd). auto.
Qed.

Lemma page_rows_invariants_witness :
  Forall (fun r =>
            is_not_None (id r) = true
            /\ strip (description r) = description r
            /\ contains [NL; NL] (description r) = false
            /\ exists tag_names studio_names,
                tags r = dumps (JList tag_names)
                /\ studios r = dumps (JList studio_names)
                /\ all_truthy tag_names = true
                /\ all_truthy studio_names = true) mixed_rows.
Proof. apply (page_rows_invariants mixed_page). reflexivity. Defined.

(** X12.  An item that has none of the optional fields, or has them
    null, is mapped to a row of defaults: null titles and score, an
    empty description, and [[]] for genres, tags and studios. *)
Theorem map_item_defaults m :
  is_obj m = true ->
  field (lit "studios") m = JNull ->
  field (lit "tags") m = JNull ->
  field (lit "title") m = JNull ->
  field (lit "description") m = JNull ->
  field (lit "genres") m = JNull ->
  field (lit "averageScore") m = JNull ->
  map_item m
  = Ok {| id := item_id m;
          title_romaji := JNull;
          title_english := JNull;
          description := [];
          genres := lit "[]";
          tags := lit "[]";
          average_score := JNull;
          studios := lit "[]" |}.
Proof.
  intros Hobj Hs Ht Hti Hd Hg Ha.
  unfold map_item. rewrite !(py_get_field m _ Hobj).
  rewrite Hs, Ht, Hti, Hd, Hg, Ha. reflexivity.
Qed.

Lemma map_item_defaults_witness :
  map_item sparse_item
  = Ok {| id := item_id sparse_item;
          title_romaji := JNull;
          title_english := JNull;
          description := [];
          genres := lit "[]";
          tags := lit "[]";
          average_score := JNull;
          studios := lit "[]" |}.
Proof. apply map_item_defaults; reflexivity. Defined.

(** ** The store *)

(** The identifiers after a batch: those of the table and those of
    the batch. *)
Lemma fold_upsert_ids_in batch :
  forall t i,
    In i (List.map col_id (fold_left upsert batch t))
    <-> In i (List.map col_id t) \/ In i (List.map col_id batch).
Proof.
  induction batch as [|r batch IH]; intros t i; cbn [fold_left List.map In].
  - tauto.
  - rewrite IH, upsert_ids_in. intuition congruence.
Qed.

Lemma upsert_length t r :
  (List.length t <= List.length (upsert t r) <= S (List.length t))%nat.
Proof.
  unfold upsert. destruct (has_id (col_id r) t).
  - rewrite length_map. lia.
  - rewrite <- (Permutation_length (insert_row_perm r t)). cbn. lia.
Qed.

Lemma fold_upsert_length batch :
  forall t,
    (List.length t <= List.length (fold_left upsert batch t)
     <= List.length t + List.length batch)%nat.
Proof.
  induction batch as [|r batch IH]; intros t; cbn [fold_left List.length]; [lia|].
  specialize (IH (upsert t r)). pose proof (upsert_length t r). lia.
Qed.

Lemma upsert_keeps t r x :
  In x t -> col_id x <> col_id r -> In x (upsert t r).
Proof.
  intros Hin Hne. unfold upsert. destruct (has_id (col_id r) t).
  - apply in_map_iff. exists x. split; auto.
    destruct (Z.eqb_spec (col_id x) (col_id r)); congruence.
  - apply insert_row_in. now right.
Qed.

Lemma fold_upsert_keeps batch :
  forall t x,
    In x t -> ~ In (col_id x) (List.map col_id batch) ->
    In x (fold_left upsert batch t).
Proof.
  induction batch as [|r batch IH]; intros t x Hin Hn; [exact Hin|].
  cbn [fold_left]. apply IH.
  - apply upsert_keeps; auto. intros E. apply Hn. left. congruence.
  - intros Hi. apply Hn. now right.
Qed.

Lemma upsert_batch_inv adapt conn rows conn' :
  upsert_batch adapt conn rows = Ok conn' ->
  exists bound, adapt_all adapt rows = Ok bound /\ conn' = fold_left upsert bound conn.
Proof.
  unfold upsert_batch. destruct (adapt_all adapt rows) as [bound|e]; [|discriminate].
  intros [= <-]. eauto.
Qed.

(** X13.  A batch never deletes a row: the identifiers after it are
    those of the table and those of the batch, the table has at least
    as many rows as before and at most one more for each row of the
    batch, and a row whose identifier is not in the batch is still in
    the table as it was. *)
Theorem upsert_batch_keeps_rows adapt conn rows conn' :
  upsert_batch adapt conn rows = Ok conn' ->
  exists bound,
    adapt_all adapt rows = Ok bound
    /\ (forall i, In i (List.map col_id conn')
                  <-> In i (List.map col_id conn) \/ In i (List.map col_id bound))
    /\ (List.length conn <= List.length conn' <= List.length conn + List.length bound)%nat
    /\ (forall x, In x conn -> ~ In (col_id x) (List.map col_id bound) -> In x conn').
Proof.
  intros H. apply upsert_batch_inv in H as (bound & Hb & ->).
  exists bound. split; [exact Hb|]. split; [|split].
  - intros i. apply fold_upsert_ids_in.
  - apply fold_upsert_length.
  - intros x. apply fold_upsert_keeps.
Qed.

Lemma upsert_batch_keeps_rows_witness :
  exists bound,
    adapt_all adapt_typed [row7B; row5] = Ok bound
    /\ (forall i, In i (List.map col_id [stored row1; stored row5; stored row7B])
                  <-> In i (List.map col_id [stored row1; stored row7A])
                      \/ In i (List.map col_id bound))
    /\ (List.length [stored row1; stored row7A]
        <= List.length [stored row1; stored row5; stored row7B]
        <= List.length [stored row1; stored row7A] + List.length bound)%nat
    /\ (forall x, In x [stored row1; stored row7A] ->
                  ~ In (col_id x) (List.map col_id bound) ->
                  In x [stored row1; stored row5; stored row7B]).
Proof.
  apply (upsert_batch_keeps_rows adapt_typed [stored row1; stored row7A] [row7B; row5]).
  reflexivity.
Defined.

(** Two tables with the same identifiers in the same places, unique,
    and the same row under each identifier, are the same table. *)
Lemma table_ext :
  forall t t',
    List.map col_id t = List.map col_id t' ->
    unique_ids t ->
    (forall i, select i t = select i t') ->
    t = t'.
Proof.
  unfold unique_ids, select.
  induction t as [|x t IH]; intros [|x' t'] Hids Hnd Hsel; try discriminate; auto.
  cbn [List.map] in Hids, Hnd. injection Hids as Hx Hids.
  inversion Hnd as [|? ? Hnx Hnt]; subst.
  assert (Hnone : forall l, ~ In (col_id x) (List.map col_id l) ->
                            filter (fun y => (col_id y =? col_id x)%Z) l = []).
  { intros l Hl. apply select_none.
    destruct (has_id (col_id x) l) eqn:E; auto. apply has_id_in in E. tauto. }
  assert (x = x').
  { specialize (Hsel (col_id x)). cbn [filter] in Hsel.
    rewrite <- Hx, Z.eqb_refl in Hsel.
    rewrite (Hnone t Hnx), (Hnone t') in Hsel by (now rewrite <- Hids).
    congruence. }
  subst x'. f_equal. apply IH; auto.
  intros i. specialize (Hsel i). cbn [filter] in Hsel.
  destruct (Z.eqb_spec (col_id x) i) as [E|Hne]; [|exact Hsel].
  rewrite <- E. rewrite (Hnone t Hnx), (Hnone t'); auto. now rewrite <- Hids.
Qed.

Lemma fold_upsert_ids_known batch :
  forall t,
    (forall i, In i (List.map col_id batch) -> In i (List.map col_id t)) ->
    List.map col_id (fold_left upsert batch t) = List.map col_id t.
Proof.
  induction batch as [|r batch IH]; intros t H; [reflexivity|].
  cbn [fold_left].
  assert (E : List.map col_id (upsert t r) = List.map col_id t).
  { apply upsert_ids_known, has_id_in, H. now left. }
  rewrite IH; [exact E|].
  intros i Hi. rewrite E. apply H. now right.
Qed.

Lemma fold_upsert_twice batch t :
  unique_ids t ->
  fold_left upsert batch (fold_left upsert batch t) = fold_left upsert batch t.
Proof.
  intros Hu.
  assert (Hu1 : unique_ids (fold_left upsert batch t)) by now apply fold_upsert_unique.
  apply table_ext.
  - apply fold_upsert_ids_known. intros i Hi. apply fold_upsert_ids_in. now right.
  - now apply fold_upsert_unique.
  - intros i. rewrite !select_fold_upsert by auto.
    now destruct (last_with_id i batch).
Qed.

(** X14.  Storing the same batch a second time changes nothing: on a
    table with unique identifiers, the table after the batch is a fixed
    point of the batch. *)
Theorem upsert_batch_idempotent adapt conn rows conn' :
  unique_ids conn ->
  upsert_batch adapt conn rows = Ok conn' ->
  upsert_batch adapt conn' rows = Ok conn'.
Proof.
  intros Hu H. apply upsert_batch_inv in H as (bound & Hb & ->).
  rewrite (upsert_batch_ok _ _ _ _ Hb). f_equal. now apply fold_upsert_twice.
Qed.

Lemma upsert_batch_idempotent_witness :
  upsert_batch adapt_typed
    [stored row1; stored row7B] [row7A; row1; row7B]
  = Ok [stored row1; stored row7B].
Proof.
  apply (upsert_batch_idempotent adapt_typed [stored row1] [row7A; row1; row7B]).
  - repeat constructor. intros [].
  - reflexivity.
Defined.

(** ** The driver *)

Lemma count_app p l l' : count p (l ++ l') = (count p l + count p l')%nat.
Proof. unfold count. now rewrite filter_app, length_app. Qed.

Lemma quiet_in_budget a es : fetches es = 0%nat -> Forall (fetch_in_budget a) es.
Proof.
  induction es as [|e es IH]; [constructor|].
  destruct e; cbn; try discriminate; intros H; constructor; cbn; auto.
Qed.

Section RunFacts.

Variable fetch : nat -> Z -> Z -> res json.
Variable adapt : row -> res anime.
Variable a : args.

Lemma store_rows_refused st rows e :
  adapt_all adapt rows = Raise e -> store_rows adapt st rows = Raise e.
Proof.
  destruct rows as [|r rows]; [discriminate|].
  intros H. unfold store_rows, upsert_batch. now rewrite H.
Qed.

(** What the rest of a round adds: events other than fetches, one
    batch at most, one page at most. *)
Lemma handle_page_effects st payload :
  exists es batch,
    log (final_state (handle_page adapt a st payload)) = log st ++ es
    /\ fetches es = 0%nat
    /\ conn (final_state (handle_page adapt a st payload))
       = fold_left upsert batch (conn st)
    /\ (page st <= page (final_state (handle_page adapt a st payload)) <= page st + 1)%Z.
Proof.
  unfold handle_page.
  destruct (page_rows payload) as [rows|e].
  2:{ exists [], []. cbn. rewrite app_nil_r. repeat split; lia. }
  destruct (adapt_all adapt rows) as [bound|e] eqn:Hb.
  - rewrite (store_rows_ok adapt st rows bound Hb).
    assert (Hq : fetches (match rows with [] => [] | _ :: _ => [Executemany rows] end)
                 = 0%nat) by now destruct rows.
    destruct (next_flag payload) as [flag|e].
    + exists (match rows with [] => [] | _ :: _ => [Executemany rows] end
              ++ [Update; Sleep (sleep a)]), bound.
      destruct (time_sleep (sleep a)); cbn [final_state log conn page];
        rewrite app_assoc, fetches_app, Hq; repeat split; lia.
    + exists (match rows with [] => [] | _ :: _ => [Executemany rows] end), bound.
      cbn [final_state log conn page]. repeat split; auto; lia.
  - rewrite (store_rows_refused st rows e Hb).
    exists [Executemany rows], []. cbn. repeat split; lia.
Qed.

Lemma round_effects st :
  exists es batch,
    log (final_state (round fetch adapt a st))
    = log st ++ Fetch (page st) (per_page a) (call_fetch fetch a st) :: es
    /\ fetches es = 0%nat
    /\ conn (final_state (round fetch adapt a st)) = fold_left upsert batch (conn st)
    /\ (page st <= page (final_state (round fetch adapt a st)) <= page st + 1)%Z.
Proof.
  unfold round. destruct (call_fetch fetch a st) as [payload|e] eqn:F.
  - destruct (handle_page_effects
                (record st [Fetch (page st) (per_page a) (Ok payload)]) payload)
      as (es & batch & Hl & Hq & Hc & Hp).
    exists es, batch. rewrite Hl, Hc. cbn [record log conn page] in *.
    rewrite <- app_assoc. auto.
  - destruct e; try (exists [], []; cbn; repeat split; lia).
    eexists _, []. cbn [final_state record log conn page fold_left].
    rewrite <- app_assoc. cbn [app]. repeat split; lia.
Qed.

(** A property of states that every round and the last notice keep
    holds of the state in which a run is left, however it is left. *)
Lemma loop_inv (I : state -> Prop) :
  (forall st, I st -> loop_test a st = true ->
              I (final_state (round fetch adapt a st))) ->
  (forall st n, I st -> I (record st [Write n])) ->
  forall fuel st, I st -> I (final_state (loop fetch adapt a fuel st)).
Proof.
  intros Hround Hwrite. induction fuel as [|fuel IH]; intros st H; cbn [loop];
    destruct (loop_test a st) eqn:T; cbn [final_state]; auto.
  specialize (Hround st H T).
  destruct (round fetch adapt a st) as [s|e s|s]; cbn [final_state] in *; auto.
Qed.

(** The same for what only the completed rounds keep, of the states a
    run is in while it goes on and when it is done. *)
Lemma loop_live (I : state -> Prop) :
  (forall st status, loop_test a st = true -> I st -> I (after_retry a st status)) ->
  (forall st payload rows bound flag,
      loop_test a st = true -> handled adapt payload rows bound flag ->
      I st -> I (after_page a st payload rows bound flag)) ->
  (forall st, I st -> I (record st [Write (Finished (total_inserted st) (db a))])) ->
  forall fuel st st',
    I st ->
    loop fetch adapt a fuel st = Done st' \/ loop fetch adapt a fuel st = Running st' ->
    I st'.
Proof.
  intros Hretry Hpage Hwrite.
  induction fuel as [|fuel IH]; intros st st' H Hrun; cbn [loop] in Hrun;
    destruct (loop_test a st) eqn:T.
  - destruct Hrun as [Hrun|Hrun]; inversion Hrun; subst; auto.
  - destruct Hrun as [Hrun|Hrun]; inversion Hrun; subst; auto.
  - destruct (round fetch adapt a st) as [s|e s|s] eqn:R.
    + now apply round_not_done in R.
    + destruct Hrun as [Hrun|Hrun]; discriminate.
    + apply (IH s st'); auto.
      apply round_running in R
        as [(status & _ & ->)|(payload & rows & bound & flag & _ & Hh & _ & ->)]; eauto.
  - destruct Hrun as [Hrun|Hrun]; inversion Hrun; subst; auto.
Qed.

(** While the fetcher raises [HTTPError], the loop goes round and
    round on the same page. *)
Lemma loop_retries fuel :
  (forall k p pp, exists status, fetch k p pp = Raise (HTTPError status)) ->
  forall st,
    loop_test a st = true ->
    exists st',
      loop fetch adapt a fuel st = Running st'
      /\ fetches (log st') = (fetches (log st) + fuel)%nat
      /\ fetches_of (page st) (log st')
         = (fetches_of (page st) (log st) + fuel)%nat
      /\ fetched (log st') = fetched (log st)
      /\ page st' = page st
      /\ conn st' = conn st
      /\ total_inserted st' = total_inserted st.
Proof.
  intros Herr. induction fuel as [|fuel IH]; intros st T.
  - exists st. cbn [loop]. rewrite T. repeat split; lia.
  - destruct (Herr (fetches (log st)) (page st) (per_page a)) as [status F].
    rewrite (loop_step fetch adapt a fuel st _ T (round_retry fetch adapt a st status F)).
    destruct (IH (after_retry a st status)) as (st' & Hrun & Hn & Hp & Hf & Hpage & Hc & Ht).
    { exact T. }
    exists st'. split; [exact Hrun|].
    rewrite Hn, fetches_after_retry. cbn [after_retry record page] in Hp.
    rewrite Hp, fetches_of_after_retry, Z.eqb_refl.
    rewrite Hf. unfold after_retry, record. cbn [log]. rewrite fetched_app. cbn [fetched flat_map fetched_page app].
    rewrite app_nil_r.
    repeat split; auto; lia.
Qed.

(** Without [HTTPError] every round that goes on moves to the next
    page, and the loop has left the budget after as many rounds as the
    budget has pages left. *)
Lemma loop_ends :
  (forall k p pp status, fetch k p pp <> Raise (HTTPError status)) ->
  forall m fuel st,
    (pages a + 1 <= page st + Z.of_nat m)%Z ->
    (m <= fuel)%nat ->
    forall st', loop fetch adapt a fuel st <> Running st'.
Proof.
  intros Hno. induction m as [|m IH]; intros fuel st Hm Hfuel st'.
  - rewrite loop_done; [discriminate|].
    unfold loop_test. apply andb_false_iff. right. apply Z.leb_gt. lia.
  - destruct (loop_test a st) eqn:T; [|rewrite loop_done by exact T; discriminate].
    destruct fuel as [|fuel]; [lia|].
    cbn [loop]. rewrite T.
    destruct (round fetch adapt a st) as [s|e s|s] eqn:R; try discriminate.
    apply round_running in R
      as [(status & F & _)|(payload & rows & bound & flag & _ & _ & _ & ->)].
    + now apply Hno in F.
    + apply IH; [cbn [after_page page]|]; lia.
Qed.

End RunFacts.

(** X15.  Every call of [fetch_page] that a run makes, however the
    run is left, asks for a page from 1 to the budget with the page
    size of the command line; with a budget below 1 a run makes no
    call at all. *)
Theorem fetches_within_budget fetch adapt a fuel file :
  Forall (fetch_in_budget a) (log (final_state (main fetch adapt a fuel file)))
  /\ ((pages a < 1)%Z ->
      fetches (log (final_state (main fetch adapt a fuel file))) = 0%nat).
Proof.
  assert (H : Forall (fetch_in_budget a)
                (log (final_state (main fetch adapt a fuel file)))
              /\ (1 <= page (final_state (main fetch adapt a fuel file)))%Z).
  { unfold main.
    apply (loop_inv fetch adapt a
             (fun st => Forall (fetch_in_budget a) (log st) /\ (1 <= page st)%Z)).
    - intros st [Hl Hp] T.
      destruct (round_effects fetch adapt a st) as (es & batch & Hlog & Hq & _ & Hpage).
      rewrite Hlog. split; [|lia].
      apply Forall_app. split; auto. constructor.
      + cbn. unfold loop_test in T. apply andb_true_iff in T as [_ T].
        apply Z.leb_le in T. auto.
      + now apply quiet_in_budget.
    - intros st n [Hl Hp]. cbn [record log page]. split; auto.
      apply Forall_app. split; auto. repeat constructor.
    - split; [constructor|reflexivity]. }
  destruct H as [H _]. split; [exact H|].
  intros Hz. unfold fetches.
  induction H as [|e l He Hl IH]; [reflexivity|].
  destruct e; cbn in *; auto. lia.
Qed.

Lemma fetches_within_budget_witness :
  Forall (fetch_in_budget (args_of 0))
    (log (final_state (main endless adapt_typed (args_of 0) 4 None)))
  /\ fetches (log (final_state (main endless adapt_typed (args_of 0) 4 None))) = 0%nat.
Proof.
  destruct (fetches_within_budget endless adapt_typed (args_of 0) 4 None) as [H Hz].
  split; [exact H|]. apply Hz. reflexivity.
Defined.

(** X16.  However a run is left, the table is the table it started
    from after some rows were upserted: no identifier it had is lost,
    it has at least as many rows, and its identifiers are unique when
    they were. *)
Theorem run_keeps_table fetch adapt a fuel file :
  unique_ids (ensure_schema file) ->
  exists batch,
    conn (final_state (main fetch adapt a fuel file))
    = fold_left upsert batch (ensure_schema file)
    /\ unique_ids (conn (final_state (main fetch adapt a fuel file)))
    /\ (forall i, In i (List.map col_id (ensure_schema file)) ->
                  In i (List.map col_id (conn (final_state (main fetch adapt a fuel file)))))
    /\ (List.length (ensure_schema file)
        <= List.length (conn (final_state (main fetch adapt a fuel file))))%nat.
Proof.
  intros Hu.
  assert (H : exists batch,
             conn (final_state (main fetch adapt a fuel file))
             = fold_left upsert batch (ensure_schema file)).
  { unfold main.
    apply (loop_inv fetch adapt a
             (fun st => exists batch, conn st = fold_left upsert batch (ensure_schema file))).
    - intros st [batch Hc] _.
      destruct (round_effects fetch adapt a st) as (es & batch' & _ & _ & Hconn & _).
      exists (batch ++ batch'). now rewrite Hconn, Hc, fold_left_app.
    - intros st n H. exact H.
    - now exists []. }
  destruct H as [batch Hc].
  exists batch. rewrite Hc. split; [reflexivity|]. split; [|split].
  - now apply fold_upsert_unique.
  - intros i Hi. apply fold_upsert_ids_in. now left.
  - apply fold_upsert_length.
Qed.

Lemma run_keeps_table_witness :
  exists batch,
    conn (final_state (main single adapt_typed (args_of 2) 3 (Some [stored row7A])))
    = fold_left upsert batch [stored row7A]
    /\ unique_ids
         (conn (final_state (main single adapt_typed (args_of 2) 3 (Some [stored row7A]))))
    /\ (forall i, In i (List.map col_id [stored row7A]) ->
                  In i (List.map col_id
                          (conn (final_state
                                   (main single adapt_typed (args_of 2) 3
                                      (Some [stored row7A]))))))
    /\ (List.length [stored row7A]
        <= List.length
             (conn (final_state (main single adapt_typed (args_of 2) 3 (Some [stored row7A])))))%nat.
Proof.
  apply (run_keeps_table single adapt_typed (args_of 2) 3 (Some [stored row7A])).
  repeat constructor. intros [].
Defined.

(** X17.  The retries have no bound: when every call of [fetch_page]
    raises [HTTPError], a run with a budget of one page or more is
    still in the loop after any number of rounds, has made as many
    calls as rounds, all for page 1, and has stored nothing. *)
Theorem http_errors_retry_forever fetch adapt a file :
  (1 <= pages a)%Z ->
  (forall k p pp, exists status, fetch k p pp = Raise (HTTPError status)) ->
  forall fuel,
  exists st,
    main fetch adapt a fuel file = Running st
    /\ fetches (log st) = fuel
    /\ fetches_of 1 (log st) = fuel
    /\ fetched (log st) = []
    /\ page st = 1%Z
    /\ conn st = ensure_schema file
    /\ total_inserted st = 0%Z.
Proof.
  intros Hp Herr fuel.
  destruct (loop_retries fetch adapt a fuel Herr (initial file))
    as (st & Hrun & Hn & Hn1 & Hf & Hpage & Hc & Ht).
  { unfold loop_test. cbn. apply Z.leb_le. exact Hp. }
  exists st. split; [exact Hrun|]. cbn in *. repeat split; auto.
Qed.

Lemma http_errors_retry_forever_witness :
  exists st,
    main_on net_down adapt_typed (args_of 3) 7 None = Running st
    /\ fetches (log st) = 7%nat
    /\ fetches_of 1 (log st) = 7%nat
    /\ fetched (log st) = []
    /\ page st = 1%Z
    /\ conn st = ensure_schema None
    /\ total_inserted st = 0%Z.
Proof.
  refine (http_errors_retry_forever
            (fun k => fetch_page (net_down k)) adapt_typed (args_of 3) None _ _ 7%nat).
  - cbn. lia.
  - intros k p pp. eexists. reflexivity.
Defined.

(** X18.  When no call of [fetch_page] raises [HTTPError], a run ends:
    after as many rounds as the budget has pages it is done or
    aborted, never still in the loop. *)
Theorem run_ends_without_http_errors fetch adapt a fuel file :
  (forall k p pp status, fetch k p pp <> Raise (HTTPError status)) ->
  (Z.to_nat (pages a) <= fuel)%nat ->
  exists st,
    main fetch adapt a fuel file = Done st
    \/ exists e, main fetch adapt a fuel file = Aborted e st.
Proof.
  intros Hno Hfuel.
  destruct (main fetch adapt a fuel file) as [st|e st|st] eqn:E.
  - exists st. now left.
  - exists st. right. now exists e.
  - exfalso. revert E. unfold main.
    apply (loop_ends fetch adapt a Hno (Z.to_nat (pages a))); auto.
    cbn [initial page]. lia.
Qed.

Lemma run_ends_without_http_errors_witness :
  exists st,
    main endless adapt_typed (args_of 3) 3 None = Done st
    \/ exists e, main endless adapt_typed (args_of 3) 3 None = Aborted e st.
Proof.
  apply (run_ends_without_http_errors endless adapt_typed (args_of 3) 3 None).
  - intros k p pp status. discriminate.
  - cbn. lia.
Defined.

(** X19.  When a run is done or still going, its table is the table it
    started from after the batches of the pages it fetched, page by
    page in the order of the fetches, each page as the store bound its
    rows. *)
Theorem table_is_fetched_pages_in_order fetch adapt a fuel file st :
  main fetch adapt a fuel file = Done st \/ main fetch adapt a fuel file = Running st ->
  exists bounds,
    Forall2 (stored_as adapt) (fetched (log st)) bounds
    /\ conn st = fold_left upsert (concat bounds) (ensure_schema file).
Proof.
  unfold main.
  apply (loop_live fetch adapt a
           (fun st => exists bounds,
                Forall2 (stored_as adapt) (fetched (log st)) bounds
                /\ conn st = fold_left upsert (concat bounds) (ensure_schema file))).
  - intros s status _ (bounds & HF & Hc). exists bounds.
    unfold after_retry, record. cbn [log conn]. rewrite fetched_app. cbn.
    rewrite app_nil_r. auto.
  - intros s payload rows bound flag _ (Hrows & Hbound & _) (bounds & HF & Hc).
    exists (bounds ++ [bound]). rewrite fetched_after_page. split.
    + apply Forall2_app; auto. constructor; [|constructor]. now exists rows.
    + cbn [after_page conn]. rewrite concat_app, fold_left_app, Hc. cbn.
      now rewrite app_nil_r.
  - intros s (bounds & HF & Hc). exists bounds.
    cbn [record log conn]. rewrite fetched_app. cbn. rewrite app_nil_r. auto.
  - exists []. split; [constructor|reflexivity].
Qed.

Lemma table_is_fetched_pages_in_order_witness :
  exists bounds,
    Forall2 (stored_as adapt_typed)
      (fetched (log (final_state (main endless adapt_typed (args_of 2) 5 None)))) bounds
    /\ conn (final_state (main endless adapt_typed (args_of 2) 5 None))
       = fold_left upsert (concat bounds) (ensure_schema None).
Proof.
  apply (table_is_fetched_pages_in_order endless adapt_typed (args_of 2) 5 None).
  left. vm_compute. reflexivity.
Defined.

(** X20.  The books of a run that is done or still going: the page
    number is one more than the number of pages fetched, the progress
    bar was updated once for each of them and never beyond a budget
    of zero pages or more, and the calls of [fetch_page] are those
    that returned a page and those that were announced as retried. *)
Theorem run_accounts fetch adapt a fuel file st :
  main fetch adapt a fuel file = Done st \/ main fetch adapt a fuel file = Running st ->
  page st = (1 + Z.of_nat (List.length (fetched (log st))))%Z
  /\ count is_update (log st) = List.length (fetched (log st))
  /\ fetches (log st)
     = (List.length (fetched (log st)) + count is_retry_notice (log st))%nat
  /\ (Z.of_nat (count is_update (log st)) <= Z.max 0 (pages a))%Z.
Proof.
  unfold main.
  apply (loop_live fetch adapt a
           (fun st =>
              page st = (1 + Z.of_nat (List.length (fetched (log st))))%Z
              /\ count is_update (log st) = List.length (fetched (log st))
              /\ fetches (log st)
                 = (List.length (fetched (log st)) + count is_retry_notice (log st))%nat
              /\ (Z.of_nat (count is_update (log st)) <= Z.max 0 (pages a))%Z)).
  - intros s status _ (Hp & Hu & Hf & Hb).
    rewrite fetches_after_retry.
    unfold after_retry, record. cbn [log page].
    rewrite fetched_app, !count_app. unfold count in *.
    cbn -[Z.add Z.of_nat Z.max]. rewrite app_nil_r. repeat split; lia.
  - intros s payload rows bound flag T _ (Hp & Hu & Hf & Hb).
    rewrite fetches_after_page, fetched_after_page, length_app.
    unfold loop_test in T. apply andb_true_iff in T as [_ T]. apply Z.leb_le in T.
    unfold after_page. cbn [log page]. rewrite !count_app. unfold count in *.
    destruct rows; cbn -[Z.add Z.of_nat Z.max]; repeat split; lia.
  - intros s (Hp & Hu & Hf & Hb).
    cbn [record log page]. rewrite fetches_app, fetched_app, !count_app.
    unfold count in *.
    cbn -[Z.add Z.of_nat Z.max]. rewrite app_nil_r. repeat split; lia.
  - cbn. repeat split; lia.
Qed.

Lemma run_accounts_witness :
  page (final_state (main limited_once adapt_typed (args_of 3) 5 None))
  = (1 + Z.of_nat
           (List.length
              (fetched (log (final_state (main limited_once adapt_typed (args_of 3) 5 None))))))%Z.
Proof.
  apply (run_accounts limited_once adapt_typed (args_of 3) 5 None).
  left. vm_compute. reflexivity.
Defined.

(** X21.  When the pause after the first page raises, the page has
    been fetched, stored and counted by then: the run is aborted with
    the error of the pause, [ValueError] for a negative length or NaN
    and [OverflowError] for a length beyond 64 bits of nanoseconds,
    with the page in the table and without its last notice. *)
Theorem failing_pause_aborts_after_first_page
        fetch adapt a fuel file payload rows bound flag e :
  time_sleep (sleep a) = Raise e ->
  (1 <= pages a)%Z ->
  fetch 0%nat 1%Z (per_page a) = Ok payload ->
  handled adapt payload rows bound flag ->
  main fetch adapt a (S fuel) file
  = Aborted e (after_page a (initial file) payload rows bound flag)
  /\ (e = ValueError \/ e = OverflowError).
Proof.
  intros Hsleep Hp Hf (Hrows & Hbound & Hflag). split.
  - unfold main. cbn [loop].
    replace (loop_test a (initial file)) with true
      by (symmetry; unfold loop_test; cbn; now apply Z.leb_le).
    unfold round, call_fetch. cbn [initial log page fetches filter List.length].
    rewrite Hf. unfold handle_page.
    rewrite Hrows, (store_rows_ok adapt _ rows bound Hbound), Hflag, Hsleep.
    unfold after_page, record. cbn [log total_inserted has_next page conn initial].
    reflexivity.
  - revert Hsleep. unfold time_sleep. destruct (sleep a) as [q|n|].
    + destruct (_ || _); [intros [= <-]; now right|].
      destruct (_ || _); [intros [= <-]; now left|discriminate].
    + intros [= <-]. now right.
    + intros [= <-]. now left.
Qed.

Lemma failing_pause_aborts_after_first_page_witness :
  (main single adapt_typed (args_sleeping (-1 # 2)%Q) 4 None
   = Aborted ValueError
       (after_page (args_sleeping (-1 # 2)%Q) (initial None) mixed_page mixed_rows
          [stored row1; stored row5] (JBool false))
   /\ (ValueError = ValueError \/ ValueError = OverflowError))
  /\ (main single adapt_typed (args_sleeping (inject_Z (10 ^ 20))) 4 None
      = Aborted OverflowError
          (after_page (args_sleeping (inject_Z (10 ^ 20))) (initial None) mixed_page
             mixed_rows [stored row1; stored row5] (JBool false))
      /\ (OverflowError = ValueError \/ OverflowError = OverflowError)).
Proof.
  split.
  - apply (failing_pause_aborts_after_first_page
             single adapt_typed (args_sleeping (-1 # 2)%Q) 3 None).
    + reflexivity.
    + cbn. lia.
    + reflexivity.
    + repeat split; vm_compute; reflexivity.
  - apply (failing_pause_aborts_after_first_page
             single adapt_typed (args_sleeping (inject_Z (10 ^ 20))) 3 None).
    + reflexivity.
    + cbn. lia.
    + reflexivity.
    + repeat split; vm_compute; reflexivity.
Defined.

Lemma execute_rows_ok adapt rows :
  forall bound k w,
    adapt_all adapt rows = Ok bound ->
    execute_rows adapt {| committed := k; in_transaction := Some w |} rows
    = ({| committed := k; in_transaction := Some (fold_left upsert bound w) |}, None).
Proof.
  induction rows as [|r rows IH]; intros bound k w H; cbn [adapt_all] in H.
  - inversion H. reflexivity.
  - bind_inv H. bind_inv H. inversion H; subst; clear H.
    cbn [execute_rows]. rewrite E. cbn [view in_transaction committed fold_left].
    now apply IH.
Qed.

Lemma execute_rows_refused adapt rows :
  forall e k w,
    adapt_all adapt rows = Raise e ->
    exists pre r post bound,
      rows = pre ++ r :: post
      /\ adapt_all adapt pre = Ok bound
      /\ adapt r = Raise e
      /\ execute_rows adapt {| committed := k; in_transaction := Some w |} rows
         = ({| committed := k; in_transaction := Some (fold_left upsert bound w) |}, Some e).
Proof.
  induction rows as [|r rows IH]; intros e k w H; cbn [adapt_all] in H; [discriminate|].
  destruct (adapt r) as [b|e0] eqn:E; cbn [bind] in H.
  - destruct (adapt_all adapt rows) as [others|e1] eqn:Hrest; [discriminate|].
    cbn [bind] in H. inversion H; subst; clear H.
    destruct (IH e k (upsert w b) eq_refl) as (pre & r' & post & bound & -> & Hpre & Hr & Hrun).
    exists (r :: pre), r', post, (b :: bound). repeat split; auto.
    + cbn [adapt_all]. now rewrite E, Hpre.
    + cbn [execute_rows]. rewrite E. exact Hrun.
  - inversion H; subst; clear H.
    exists [], r, rows, []. repeat split; auto.
    cbn [execute_rows]. now rewrite E.
Qed.

(** X22.  [upsert_batch] commits all the rows of a batch or none.
    When no row is refused, the committed table is the table after
    every row, as [upsert_batch] returns it.  When a row is refused,
    the rows before it have been applied in the open transaction only:
    line 98 is not reached and the committed table is as it was. *)
Theorem upsert_batch_all_or_nothing adapt c rows :
  in_transaction c = None ->
  match upsert_batch adapt (committed c) rows with
  | Ok t =>
      upsert_batch_on adapt c rows = ({| committed := t; in_transaction := None |}, None)
  | Raise e =>
      exists pre r post bound,
        rows = pre ++ r :: post
        /\ adapt_all adapt pre = Ok bound
        /\ adapt r = Raise e
        /\ upsert_batch_on adapt c rows
           = ({| committed := committed c;
                 in_transaction := Some (fold_left upsert bound (committed c)) |},
              Some e)
  end.
Proof.
  intros Hc. unfold upsert_batch, upsert_batch_on, executemany, begin_transaction, view.
  rewrite Hc. destruct (adapt_all adapt rows) as [bound|e] eqn:H; cbn [bind].
  - now rewrite (execute_rows_ok adapt rows bound _ _ H).
  - destruct (execute_rows_refused adapt rows e (committed c) (committed c) H)
      as (pre & r & post & bound & Hrows & Hpre & Hr & Hrun).
    exists pre, r, post, bound. rewrite Hrun. auto.
Qed.

Lemma upsert_batch_all_or_nothing_witness :
  exists pre r post bound,
    [row1; row7B; row_big; row5] = pre ++ r :: post
    /\ adapt_all adapt_typed pre = Ok bound
    /\ adapt_typed r = Raise OverflowError
    /\ upsert_batch_on adapt_typed
         {| committed := [stored row7A]; in_transaction := None |}
         [row1; row7B; row_big; row5]
       = ({| committed := [stored row7A];
             in_transaction := Some (fold_left upsert bound [stored row7A]) |},
          Some OverflowError).
Proof.
  exact (upsert_batch_all_or_nothing adapt_typed
           {| committed := [stored row7A]; in_transaction := None |}
           [row1; row7B; row_big; row5] eq_refl).
Defined.
